(** * fuzzy-motion.vim: the target labelling engine and the key dispatch loop

    A shallow embedding of the plugin's entry module under
    [denops/fuzzy-motion]: the match aggregator and label assigner
    ([getTarget]), the renderer bookkeeping ([mountTargets],
    [unmountTargets]) and the interactive loop of the [execute]
    dispatcher entry.

    The editor is external.  Every request the plugin sends to it is
    recorded, in order, in a trace of [Call]s carried by the state; the
    identifiers the editor hands back are taken from an arbitrary supply. *)

From Stdlib Require Import String Ascii List ZArith Bool Lia Arith.
Import ListNotations.
Open Scope Z_scope.

(** ** JavaScript strings and numbers *)

Module JS.

(** A JavaScript string is a sequence of UTF-16 code units. *)
Definition str : Type := list Z.

Fixpoint eqb (a b : str) : bool :=
  match a, b with
  | [], [] => true
  | x :: a', y :: b' => (x =? y) && eqb a' b'
  | _, _ => false
  end.

(** A JavaScript number as the code meets it: an integer or [NaN]. *)
Inductive num : Type :=
| Num (z : Z)
| NaN.

(** [a === b] on numbers: [NaN] equals nothing, itself included. *)
Definition num_eqb (a b : num) : bool :=
  match a, b with
  | Num x, Num y => x =? y
  | _, _ => false
  end.

(** [a <= b] on numbers: false as soon as one side is [NaN]. *)
Definition num_leb (a b : num) : bool :=
  match a, b with
  | Num x, Num y => x <=? y
  | _, _ => false
  end.

(** [s.charCodeAt(0)]: [NaN] on the empty string. *)
Definition charCodeAt0 (s : str) : num :=
  match s with
  | [] => NaN
  | u :: _ => Num u
  end.

(** [String.fromCharCode(code)]: one code unit, the code taken modulo
    2^16 ([NaN] converts to 0). *)
Definition fromCharCode (code : num) : str :=
  match code with
  | Num z => [z mod 65536]
  | NaN => [0]
  end.

(** Vim's [nr2char(code)], called only with a code in 32..126: the
    string of that one ASCII character. *)
Definition nr2char (code : num) : str :=
  match code with
  | Num z => [z]
  | NaN => []
  end.

(** [s.slice(0, -1)] *)
Definition slice_0_m1 (s : str) : str := removelast s.

(** The code units of an ASCII literal. *)
Definition lit (s : string) : str :=
  map (fun a => Z.of_N (N_of_ascii a)) (list_ascii_of_string s).

(** A single character: exactly one code unit, in range. *)
Definition single (s : str) : Prop :=
  exists u, s = [u] /\ 0 <= u < 65536.

End JS.

(** [arr.includes(x)] for an array of strings; [x] may be [undefined]
    (an out-of-range element), which no string equals. *)
Definition includes (arr : list JS.str) (x : option JS.str) : bool :=
  match x with
  | Some s => existsb (JS.eqb s) arr
  | None => false
  end.

(** ** Data model ([types.ts], as the code uses it) *)

Record Pos : Type := mkPos { line : Z; col : Z }.

Record Word : Type := mkWord { text : JS.str; pos : Pos }.

(** A matcher's result.  [score] is only ever copied by this file. *)
Record Result : Type := mkResult {
  item : Word;
  start : Z;
  end_ : Z;
  score : Z
}.

Module Target.
Record t : Type := mk {
  text : JS.str;
  start : Z;
  end_ : Z;
  pos : Pos;
  score : Z;
  char : JS.str
}.
End Target.

(** ** Key codes *)

Definition ENTER : Z := 13.
Definition ESC : Z := 27.
Definition BS : Z := 128.
Definition C_H : Z := 8.
Definition C_W : Z := 23.
Definition SPACE : Z := 32.
Definition TILDE : Z := 126.

(** ** Configuration and collaborators *)

Inductive Host : Type := Nvim | Vim.

(** The [g:fuzzy_motion_*] variables and [denops.meta.host]. *)
Record Config : Type := mkConfig {
  fuzzy_motion_matchers : list JS.str;
  fuzzy_motion_labels : list JS.str;
  fuzzy_motion_auto_jump : bool;
  fuzzy_motion_disable_match_highlight : bool;
  host : Host
}.

(** What lies outside the file: the two matchers ([fzf.ts], [kensaku.ts]),
    the words and window bounds read from the buffer, and the identifiers
    the editor returns, the [n]-th one being [editor_id n]. *)
Record Env : Type := mkEnv {
  getFzfResults : JS.str -> list Word -> list Result;
  getKensakuResults : JS.str -> list Word -> list Result;
  getWords : list Word;
  startLine : Z;
  endLine : Z;
  editor_id : nat -> Z
}.

(** ** Requests sent to the editor and to the matchers *)

Inductive Call : Type :=
| Echo (msg : JS.str)                 (* execute(`echo '...'`) *)
| Redraw (bang : bool)                (* execute(`redraw`) / `redraw!` *)
| MatchAddPos (group : string) (id : Z)
| MatchDelete (id : Z)
| ExtmarkSet (t : Target.t) (index : nat) (id : Z)
| ExtmarkDel (id : Z)
| PropAdd (t : Target.t) (id : Z)
| PropRemove (id : Z)
| PopupCreate (t : Target.t) (index : nat) (id : Z)
| PopupClose (id : Z)
| NormalMark                          (* execute("normal! m`") *)
| Cursor (l c : Z)                    (* call("cursor", l, c) *)
| InvokeFzf (input : JS.str)
| InvokeKensaku (input : JS.str)
| ConsoleError.

(** ** Module state

    The module-level [let] variables of [main.ts], the number of
    identifiers the editor has handed out, and the trace (oldest first). *)
Record State : Type := mkState {
  targetCache : list Target.t;
  markIds : list Z;
  popupIds : list Z;
  targetMatchIds : list Z;
  textPropId : Z;
  replies : nat;
  trace : list Call
}.

Definition M (A : Type) : Type := State -> A * State.

Definition ret {A} (a : A) : M A := fun s => (a, s).

Definition bind {A B} (c : M A) (k : A -> M B) : M B :=
  fun s => let (a, s') := c s in k a s'.

Notation "x <- c ;; k" := (bind c (fun x => k))
  (at level 61, c at next level, right associativity).
Notation "c ;; k" := (bind c (fun _ => k))
  (at level 61, right associativity).

Definition emit (c : Call) : M unit :=
  fun s => (tt, mkState (targetCache s) (markIds s) (popupIds s)
                        (targetMatchIds s) (textPropId s) (replies s)
                        (trace s ++ [c])).

(** The identifier the editor returns for a creating request. *)
Definition reply (e : Env) : M Z :=
  fun s => (editor_id e (replies s),
            mkState (targetCache s) (markIds s) (popupIds s)
                    (targetMatchIds s) (textPropId s) (S (replies s))
                    (trace s)).

Definition get {A} (f : State -> A) : M A := fun s => (f s, s).

Definition set_targetCache (v : list Target.t) : M unit :=
  fun s => (tt, mkState v (markIds s) (popupIds s) (targetMatchIds s)
                        (textPropId s) (replies s) (trace s)).

Definition set_markIds (v : list Z) : M unit :=
  fun s => (tt, mkState (targetCache s) v (popupIds s) (targetMatchIds s)
                        (textPropId s) (replies s) (trace s)).

Definition set_popupIds (v : list Z) : M unit :=
  fun s => (tt, mkState (targetCache s) (markIds s) v (targetMatchIds s)
                        (textPropId s) (replies s) (trace s)).

Definition set_targetMatchIds (v : list Z) : M unit :=
  fun s => (tt, mkState (targetCache s) (markIds s) (popupIds s) v
                        (textPropId s) (replies s) (trace s)).

Definition set_textPropId (v : Z) : M unit :=
  fun s => (tt, mkState (targetCache s) (markIds s) (popupIds s)
                        (targetMatchIds s) v (replies s) (trace s)).

(** [for (const x of xs) body(x)] *)
Fixpoint forEach {A} (xs : list A) (body : A -> M unit) : M unit :=
  match xs with
  | [] => ret tt
  | x :: xs' => body x ;; forEach xs' body
  end.

(** ** The match aggregator (getTarget, first half) *)

(** The predicate of [acc.find] in the [reduce] callback. *)
Definition samePlace (cur v : Result) : bool :=
  (line (pos (item v)) =? line (pos (item cur)))
  && (col (pos (item v)) + start v =? col (pos (item cur)) + start cur).

(** The [reduce] callback. *)
Definition dedupStep (acc : list Result) (cur : Result) : list Result :=
  match find (samePlace cur) acc with
  | Some _ => acc
  | None => acc ++ [cur]
  end.

(** [[...fzfResult, ...kensakuResults].reduce(..., [])] *)
Definition dedup (rs : list Result) : list Result :=
  fold_left dedupStep rs [].

(** ** The label assigner (getTarget, second half) *)

(** The predicate of [targetCache.find]. *)
Definition sameIdentity (entry : Result) (cache : Target.t) : bool :=
  (line (Target.pos cache) =? line (pos (item entry)))
  && (col (Target.pos cache) =? col (pos (item entry)))
  && (Target.start cache =? start entry).

(** The object pushed on [labeledTargets]: every field but [char] comes
    from the entry. *)
Definition mkTarget (entry : Result) (c : JS.str) : Target.t :=
  Target.mk (text (item entry)) (start entry) (end_ entry)
            (pos (item entry)) (score entry) c.

(** The condition of the inner [while]. *)
Definition skipCond (labels cachedLabels : list JS.str) (labelIndex : nat)
  : bool :=
  includes cachedLabels (nth_error labels labelIndex)
  && (labelIndex <? length labels)%nat.

Fixpoint skipFuel (fuel : nat) (labels cachedLabels : list JS.str)
  (labelIndex : nat) : nat :=
  match fuel with
  | O => labelIndex
  | S fuel' =>
      if skipCond labels cachedLabels labelIndex
      then skipFuel fuel' labels cachedLabels (S labelIndex)
      else labelIndex
  end.

(** [while (cachedLabels.includes(labels[labelIndex]) &&
            labelIndex < labels.length) labelIndex++]:
    the value of [labelIndex] after the loop.  The loop runs at most
    [labels.length - labelIndex] times ([skipCached_eq] below). *)
Definition skipCached (labels cachedLabels : list JS.str) (labelIndex : nat)
  : nat :=
  skipFuel (length labels - labelIndex) labels cachedLabels labelIndex.

(** The three locals the [for] loop updates. *)
Record Labeling : Type := mkLabeling {
  labelIndex : nat;
  labeledTargets : list Target.t;
  cachedLabels : list JS.str
}.

(** One iteration of [for (const entry of results)]. *)
Definition labelStep (cache : list Target.t) (labels : option (list JS.str))
  (st : Labeling) (entry : Result) : Labeling :=
  match find (sameIdentity entry) cache with
  | Some cachedTarget =>
      mkLabeling (labelIndex st)
                 (labeledTargets st ++ [mkTarget entry (Target.char cachedTarget)])
                 (cachedLabels st)
  | None =>
      match labels with
      | Some labels =>
          if (labelIndex st <? length labels)%nat then
            let i := skipCached labels (cachedLabels st) (labelIndex st) in
            if (length labels <=? i)%nat then
              mkLabeling i (labeledTargets st) (cachedLabels st)
            else
              match nth_error labels i with
              | Some l =>
                  mkLabeling i (labeledTargets st ++ [mkTarget entry l])
                             (cachedLabels st ++ [l])
              | None => mkLabeling i (labeledTargets st) (cachedLabels st)
              end
          else st
      | None => st
      end
  end.

(** The whole [for] loop, from [labelIndex = 0], [labeledTargets = []] and
    [cachedLabels = targetCache.map(t => t.char)]. *)
Definition assignLabels (cache : list Target.t) (labels : option (list JS.str))
  (results : list Result) : list Target.t :=
  labeledTargets
    (fold_left (labelStep cache labels) results
               (mkLabeling 0 [] (map Target.char cache))).

(** ** getTarget *)

Definition runFzf (c : Config) (e : Env) (input : JS.str) (words : list Word)
  : M (list Result) :=
  if includes (fuzzy_motion_matchers c) (Some (JS.lit "fzf"))
  then emit (InvokeFzf input) ;; ret (getFzfResults e input words)
  else ret [].

Definition runKensaku (c : Config) (e : Env) (input : JS.str)
  (words : list Word) : M (list Result) :=
  if includes (fuzzy_motion_matchers c) (Some (JS.lit "kensaku"))
  then emit (InvokeKensaku input) ;; ret (getKensakuResults e input words)
  else ret [].

(** The deduplicated [results] of getTarget for a non-empty input. *)
Definition aggregate (c : Config) (e : Env) (input : JS.str)
  (words : list Word) : M (list Result) :=
  fzfResult <- runFzf c e input words ;;
  kensakuResults <- runKensaku c e input words ;;
  ret (dedup (fzfResult ++ kensakuResults)).

Definition getTarget (c : Config) (e : Env) (words : list Word)
  (input : JS.str) (labels : option (list JS.str)) : M (list Target.t) :=
  if JS.eqb input [] then ret []
  else
    results <- aggregate c e input words ;;
    cache <- get targetCache ;;
    let labeledTargets := assignLabels cache labels results in
    set_targetCache labeledTargets ;;
    ret labeledTargets.

(** ** The renderer bookkeeping *)

(** [unmountTargets].  The [matchdelete] requests are sent in order. *)
Definition unmountTargets (c : Config) : M unit :=
  marks <- get markIds ;;
  match host c with
  | Nvim => forEach marks (fun markId => emit (ExtmarkDel markId))
  | Vim =>
      forEach marks (fun markId => emit (PropRemove markId)) ;;
      popups <- get popupIds ;;
      forEach popups (fun popupId => emit (PopupClose popupId)) ;;
      set_popupIds []
  end ;;
  matches <- get targetMatchIds ;;
  forEach matches (fun id => emit (MatchDelete id)) ;;
  set_markIds [] ;;
  set_targetMatchIds [].

(** The body of the [for] loop of [mountTargets].  The read-only queries
    of the Neovim branch (buffer line, character index, display width)
    change nothing and are left out of the trace. *)
Definition mountTarget (c : Config) (e : Env) (index : nat)
  (target : Target.t) : M unit :=
  match host c with
  | Nvim =>
      id <- reply e ;;
      emit (ExtmarkSet target index id) ;;
      marks <- get markIds ;;
      set_markIds (marks ++ [id])
  | Vim =>
      p <- get textPropId ;;
      set_textPropId (p + 1) ;;
      marks <- get markIds ;;
      set_markIds (marks ++ [p + 1]) ;;
      emit (PropAdd target (p + 1)) ;;
      id <- reply e ;;
      emit (PopupCreate target index id) ;;
      popups <- get popupIds ;;
      set_popupIds (popups ++ [id])
  end ;;
  if fuzzy_motion_disable_match_highlight c then ret tt
  else
    id <- reply e ;;
    emit (MatchAddPos "FuzzyMotionMatch" id) ;;
    matches <- get targetMatchIds ;;
    set_targetMatchIds (matches ++ [id]).

Fixpoint mountFrom (c : Config) (e : Env) (index : nat)
  (targets : list Target.t) : M unit :=
  match targets with
  | [] => ret tt
  | target :: rest => mountTarget c e index target ;; mountFrom c e (S index) rest
  end.

(** [mountTargets]: [for (const [index, target] of targets.entries())]. *)
Definition mountTargets (c : Config) (e : Env) (targets : list Target.t)
  : M unit :=
  mountFrom c e 0 targets.

(** [jumpTarget]: set the jump-back mark, then move the cursor to
    [(pos.line, pos.col + start)]. *)
Definition jumpTarget (target : Target.t) : M unit :=
  emit NormalMark ;;
  emit (Cursor (line (Target.pos target))
               (col (Target.pos target) + Target.start target)).

(** ** The interactive loop of [execute] *)

(** What [fuzzy_motion#_getchar] hands back, as the TypeScript side sees
    it ([unknown]): a number, or something [assert(code, is.Number)]
    rejects. *)
Inductive value : Type :=
| VNumber (z : Z)
| VOther.

(** How control leaves the [while (true)]. *)
Inductive Exit : Type :=
| Break     (* break *)
| Return    (* return, inside the try *)
| Throw.    (* an exception *)

Inductive Step : Type :=
| Continue (input : JS.str)
| Stop (e : Exit).

(** The top of one cycle, up to the blocking read. *)
Definition render (c : Config) (e : Env) (words : list Word)
  (input : JS.str) : M (list Target.t) :=
  emit (Echo (JS.lit "fuzzy-motion: " ++ input)) ;;
  unmountTargets c ;;
  targets <- getTarget c e words input (Some (fuzzy_motion_labels c)) ;;
  mountTargets c e targets ;;
  emit (Redraw false) ;;
  ret targets.

(** The [if ... else if ...] chain on [code], after the assertion. *)
Definition dispatch (c : Config) (e : Env) (words : list Word)
  (input : JS.str) (targets : list Target.t) (code : JS.num) : M Step :=
  let labels := fuzzy_motion_labels c in
  if JS.num_eqb code (JS.Num ESC) then ret (Stop Break)
  else
    match find (fun label => JS.num_eqb (JS.charCodeAt0 label) code) labels with
    | Some _ =>
        let targetChar := JS.fromCharCode code in
        match find (fun target => JS.eqb (Target.char target) targetChar) targets with
        | Some target => jumpTarget target ;; ret (Stop Break)
        | None => ret (Continue input)
        end
    | None =>
        if JS.num_eqb code (JS.Num BS) || JS.num_eqb code (JS.Num C_H) then
          set_targetCache [] ;;
          ret (Continue (JS.slice_0_m1 input))
        else if JS.num_eqb code (JS.Num C_W) then
          set_targetCache [] ;;
          ret (Continue [])
        else if JS.num_leb (JS.Num SPACE) code && JS.num_leb code (JS.Num TILDE) then
          let codeStr := JS.nr2char code in
          let input' := input ++ codeStr in
          targets' <- getTarget c e words input' (Some labels) ;;
          (* autoJump && targets.length === 1, then targets[0] *)
          match targets' with
          | [t] =>
              if fuzzy_motion_auto_jump c
              then jumpTarget t ;; ret (Stop Break)
              else ret (Continue input')
          | _ => ret (Continue input')
          end
        else ret (Continue input)
    end.

(** From the read of [code] to the end of the loop body. *)
Definition handle (c : Config) (e : Env) (words : list Word)
  (input : JS.str) (targets : list Target.t) (v : value) : M Step :=
  match v with
  | VNumber z =>
      if z =? ENTER then
        match targets with
        | [] => ret (Stop Return)
        | t0 :: _ => dispatch c e words input targets (JS.charCodeAt0 (Target.char t0))
        end
      else dispatch c e words input targets (JS.Num z)
  | VOther => ret (Stop Throw)
  end.

(** The state of the loop once the supplied keys are used up. *)
Inductive Outcome : Type :=
| Waiting (input : JS.str) (targets : list Target.t)
| Exited (e : Exit).

(** [while (true) { ... }] fed the values the successive reads return.
    When they run out the loop is blocked in the next read. *)
Fixpoint loop (c : Config) (e : Env) (words : list Word)
  (keys : list value) (input : JS.str) : M Outcome :=
  targets <- render c e words input ;;
  match keys with
  | [] => ret (Waiting input targets)
  | v :: keys' =>
      st <- handle c e words input targets v ;;
      match st with
      | Continue input' => loop c e words keys' input'
      | Stop x => ret (Exited x)
      end
  end.

(** [lineNumbers] of [execute]:
    [[...Array(endLine + startLine + 1)].map((_, i) => i + startLine)],
    for window bounds that are line numbers (at least 1). *)
Definition lineNumbers (e : Env) : list Z :=
  map (fun i => Z.of_nat i + startLine e)
      (seq 0 (Z.to_nat (endLine e + startLine e + 1))).

(** The [matchaddpos] requests that shade the window. *)
Fixpoint shade (e : Env) (lines : list Z) : M (list Z) :=
  match lines with
  | [] => ret []
  | _ :: rest =>
      id <- reply e ;;
      emit (MatchAddPos "FuzzyMotionShade" id) ;;
      ids <- shade e rest ;;
      ret (id :: ids)
  end.

(** The [finally] block. *)
Definition cleanup (c : Config) (matchIds : list Z) : M unit :=
  forEach matchIds (fun id => emit (MatchDelete id)) ;;
  unmountTargets c ;;
  emit (Echo []) ;;
  match host c with
  | Nvim => emit (Redraw false)
  | Vim => emit (Redraw true)
  end.

(** [try { ... } catch (err) { console.error(err) } finally { ... }]
    around an already run loop. *)
Definition settle (c : Config) (matchIds : list Z) (o : Outcome) : M Outcome :=
  match o with
  | Waiting _ _ => ret o
  | Exited x =>
      match x with
      | Throw => emit ConsoleError
      | _ => ret tt
      end ;;
      cleanup c matchIds ;;
      ret o
  end.

(** The [execute] entry of the dispatcher. *)
Definition execute (c : Config) (e : Env) (keys : list value) : M Outcome :=
  set_targetCache [] ;;
  matchIds <- shade e (lineNumbers e) ;;
  let words := getWords e in
  o <- loop c e words keys [] ;;
  settle c matchIds o.

(** The [targets] entry of the dispatcher. *)
Definition targets (c : Config) (e : Env) (input : JS.str)
  : M (list Target.t) :=
  set_targetCache [] ;;
  getTarget c e (getWords e) input (Some (fuzzy_motion_labels c)).

(** The state when the module is loaded. *)
Definition initial : State := mkState [] [] [] [] 0 0 [].

(** ** Vocabulary of the properties *)

(** The effective match position of a result and of a target:
    [(pos.line, pos.col + start)]. *)
Definition place (r : Result) : Z * Z :=
  (line (pos (item r)), col (pos (item r)) + start r).

Definition tplace (t : Target.t) : Z * Z :=
  (line (Target.pos t), col (Target.pos t) + Target.start t).

(** The identity triple [(pos.line, pos.col, start)]. *)
Definition ident (r : Result) : Z * Z * Z :=
  (line (pos (item r)), col (pos (item r)), start r).

Definition tident (t : Target.t) : Z * Z * Z :=
  (line (Target.pos t), col (Target.pos t), Target.start t).

(** Pairwise-distinct label chars and pairwise-distinct effective
    positions. *)
Definition Distinct (ts : list Target.t) : Prop :=
  NoDup (map Target.char ts) /\ NoDup (map tplace ts).

(** An order-preserving selection of entries. *)
Inductive Subseq {A} : list A -> list A -> Prop :=
| Subseq_nil : Subseq [] []
| Subseq_skip x l1 l2 : Subseq l1 l2 -> Subseq l1 (x :: l2)
| Subseq_keep x l1 l2 : Subseq l1 l2 -> Subseq (x :: l1) (x :: l2).

(** The concatenation getTarget folds over: fzf's results when
    ["fzf"] is enabled, then kensaku's when ["kensaku"] is. *)
Definition concatenated (c : Config) (e : Env) (input : JS.str)
  (words : list Word) : list Result :=
  (if includes (fuzzy_motion_matchers c) (Some (JS.lit "fzf"))
   then getFzfResults e input words else [])
  ++
  (if includes (fuzzy_motion_matchers c) (Some (JS.lit "kensaku"))
   then getKensakuResults e input words else []).

(** The concatenation as the specification words it: the enabled
    matchers' outputs in the order the configuration lists them. *)
Definition concat_configured (c : Config) (e : Env) (input : JS.str)
  (words : list Word) : list Result :=
  flat_map
    (fun name =>
       if JS.eqb name (JS.lit "fzf") then getFzfResults e input words
       else if JS.eqb name (JS.lit "kensaku") then getKensakuResults e input words
       else [])
    (fuzzy_motion_matchers c).

(** The first entries paired with the alphabet in order, as far as the
    shorter of the two goes. *)
Definition zipLabels (results : list Result) (labels : list JS.str)
  : list Target.t :=
  map (fun p => mkTarget (fst p) (snd p)) (combine results labels).

(** The state with the label cache replaced. *)
Definition with_cache (v : list Target.t) (s : State) : State :=
  snd (set_targetCache v s).

(** The cache states a session can be in: empty, or what getTarget left. *)
Inductive reachable : State -> Prop :=
| reach_empty s : targetCache s = [] -> reachable s
| reach_getTarget c e words input labels s :
    reachable s -> reachable (snd (getTarget c e words input labels s))
| reach_same s s' :
    reachable s -> targetCache s' = targetCache s -> reachable s'.

(** The loop taken up again from the blocking read. *)
Definition resume (c : Config) (e : Env) (words : list Word)
  (keys : list value) (o : Outcome) : M Outcome :=
  match o, keys with
  | Waiting input targets, v :: keys' =>
      st <- handle c e words input targets v ;;
      match st with
      | Continue input' => loop c e words keys' input'
      | Stop x => ret (Exited x)
      end
  | _, _ => ret o
  end.

(** *** Accounting of what is mounted in the editor *)

Inductive Kind : Type := KMatch | KExtmark | KProp | KPopup.

(** The effect of one request on the number of live objects of kind [k]
    with identifier [id]. *)
Definition delta (k : Kind) (id : Z) (r : Call) : Z :=
  match k, r with
  | KMatch, MatchAddPos _ i => if i =? id then 1 else 0
  | KMatch, MatchDelete i => if i =? id then -1 else 0
  | KExtmark, ExtmarkSet _ _ i => if i =? id then 1 else 0
  | KExtmark, ExtmarkDel i => if i =? id then -1 else 0
  | KProp, PropAdd _ i => if i =? id then 1 else 0
  | KProp, PropRemove i => if i =? id then -1 else 0
  | KPopup, PopupCreate _ _ i => if i =? id then 1 else 0
  | KPopup, PopupClose i => if i =? id then -1 else 0
  | _, _ => 0
  end.

(** Objects of kind [k] and identifier [id] created and not yet deleted
    by the requests of a trace. *)
Fixpoint live (k : Kind) (id : Z) (tr : list Call) : Z :=
  match tr with
  | [] => 0
  | r :: tr' => delta k id r + live k id tr'
  end.

(** Occurrences of [id] in a bookkeeping list. *)
Fixpoint occ (id : Z) (l : list Z) : Z :=
  match l with
  | [] => 0
  | i :: l' => (if i =? id then 1 else 0) + occ id l'
  end.

(** What the module's bookkeeping lists say is mounted. *)
Definition owed (c : Config) (k : Kind) (id : Z) (s : State) : Z :=
  match k, host c with
  | KMatch, _ => occ id (targetMatchIds s)
  | KExtmark, Nvim => occ id (markIds s)
  | KProp, Vim => occ id (markIds s)
  | KPopup, Vim => occ id (popupIds s)
  | _, _ => 0
  end.

(** Live objects the bookkeeping does not account for. *)
Definition unowned (c : Config) (k : Kind) (id : Z) (s : State) : Z :=
  live k id (trace s) - owed c k id s.


(** The invariant of the [for] loop of the label assigner used to show
    the chars distinct, [rest] being the entries still to come. *)
Definition charsInv (cache : list Target.t) (rest : list Result)
  (st : Labeling) : Prop :=
  NoDup (map Target.char (labeledTargets st))
  /\ incl (map Target.char cache) (cachedLabels st)
  /\ (forall t, In t (labeledTargets st) -> In (Target.char t) (cachedLabels st))
  /\ (forall t, In t (labeledTargets st) ->
        In (Target.char t) (map Target.char cache) ->
        exists ct, In ct cache /\ tident ct = tident t
                   /\ Target.char ct = Target.char t)
  /\ (forall t r, In t (labeledTargets st) -> In r rest -> tplace t <> place r).

(** ** Frame conditions *)

(** An action leaves the observation [f] of the state as it was. *)
Definition preserves {X A} (f : State -> X) (m : M A) : Prop :=
  forall s, f (snd (m s)) = f s.

(** An action keeps the state property [P]. *)
Definition maintains {A} (P : State -> Prop) (m : M A) : Prop :=
  forall s, P s -> P (snd (m s)).

(** The cached chars all belong to the alphabet. *)
Definition charsWithin (labels : list JS.str) (s : State) : Prop :=
  incl (map Target.char (targetCache s)) labels.

(** ** Reading a trace *)

(** The cursor positions a trace moves to, in order. *)
Definition cursorMoves (tr : list Call) : list (Z * Z) :=
  flat_map (fun r => match r with Cursor l c => [(l, c)] | _ => [] end) tr.

(** Whether a matcher was invoked on [input]. *)
Definition invoked (input : JS.str) (tr : list Call) : bool :=
  existsb (fun r => match r with
                    | InvokeFzf i | InvokeKensaku i => JS.eqb i input
                    | _ => false
                    end) tr.

(** The state with requests added to its trace. *)
Definition logged (rs : list Call) (s : State) : State :=
  mkState (targetCache s) (markIds s) (popupIds s) (targetMatchIds s)
          (textPropId s) (replies s) (trace s ++ rs).


(** ** Concrete sessions used by the examples *)

Module Ex.

Definition word (s : string) (l c : Z) : Word := mkWord (JS.lit s) (mkPos l c).

(** A hit of [len] code units at offset [st] of [w]. *)
Definition hit (w : Word) (st len sc : Z) : Result :=
  mkResult w st (st + len) sc.

Definition none (_ : JS.str) (_ : list Word) : list Result := [].

Definition asd : list JS.str := [JS.lit "a"; JS.lit "s"; JS.lit "d"].

(** *** Three words, two labels: the matches move as the input grows *)

Definition of_fo : Word := word "of_fo" 1 1.
Definition if_fo : Word := word "if_fo" 2 1.
Definition fo : Word := word "fo" 3 1.

Definition fzf1 (input : JS.str) (_ : list Word) : list Result :=
  if JS.eqb input (JS.lit "f")
  then [hit of_fo 1 1 16; hit if_fo 1 1 16; hit fo 0 1 16]
  else if JS.eqb input (JS.lit "fo")
  then [hit fo 0 2 40; hit of_fo 3 2 36; hit if_fo 3 2 36]
  else [].

Definition env1 : Env :=
  mkEnv fzf1 none [of_fo; if_fo; fo] 1 3 (fun n => 100 + Z.of_nat n).

Definition cfg1 : Config :=
  mkConfig [JS.lit "fzf"] [JS.lit "a"; JS.lit "s"] false false Nvim.

(** The same with the alphabet [a, a]. *)
Definition cfg1_dup : Config :=
  mkConfig [JS.lit "fzf"] [JS.lit "a"; JS.lit "a"] false false Nvim.

(** *** Both matchers, kensaku listed first *)

Definition foo : Word := word "foo" 3 1.
Definition far : Word := word "far" 4 1.

Definition fzf2 (_ : JS.str) (_ : list Word) : list Result := [hit foo 0 1 16].
Definition kensaku2 (_ : JS.str) (_ : list Word) : list Result := [hit far 0 1 1].

Definition env2 : Env :=
  mkEnv fzf2 kensaku2 [foo; far] 1 4 (fun n => 100 + Z.of_nat n).

Definition cfg2 : Config :=
  mkConfig [JS.lit "kensaku"; JS.lit "fzf"] asd false false Nvim.

(** *** Two words, labels [a, s, d] *)

(** "foo" on line 3 and "far" on line 4; "fa" narrows to "far",
    "fo" and "foo" to "foo". *)
Definition fzf (input : JS.str) (_ : list Word) : list Result :=
  if JS.eqb input (JS.lit "f") then [hit foo 0 1 16; hit far 0 1 16]
  else if JS.eqb input (JS.lit "fo") then [hit foo 0 2 40]
  else if JS.eqb input (JS.lit "foo") then [hit foo 0 3 60]
  else if JS.eqb input (JS.lit "fa") then [hit far 0 2 40]
  else [].

Definition env : Env :=
  mkEnv fzf none [foo; far] 1 4 (fun n => 100 + Z.of_nat n).

Definition words : list Word := getWords env.

(** Alphabet [a, s, d], auto-jump on. *)
Definition auto : Config := mkConfig [JS.lit "fzf"] asd true false Nvim.

(** A given alphabet, auto-jump off. *)
Definition manual (labels : list JS.str) : Config :=
  mkConfig [JS.lit "fzf"] labels false false Nvim.

End Ex.

(** ** More vocabulary: the label assigner *)

(** The entries the cache knows, each with the char the cache holds for
    its identity triple; the others left out. *)
Definition carried (cache : list Target.t) (rs : list Result)
  : list Target.t :=
  flat_map (fun r => match find (sameIdentity r) cache with
                     | Some ct => [mkTarget r (Target.char ct)]
                     | None => []
                     end) rs.

(** A code unit the loop can append to the input: printable, and not the
    first character of a label. *)
Definition searchable (labels : list JS.str) (u : Z) : Prop :=
  SPACE <= u <= TILDE
  /\ forall label, In label labels -> JS.charCodeAt0 label <> JS.Num u.


(** The text-property identifiers [p + 1, ..., p + n]. *)
Definition propIds (p : Z) (n : nat) : list Z :=
  map (fun i => p + Z.of_nat i) (seq 1 n).

(** ** The word extractor ([getWords]) *)

Module Words.

(** [Buffer.byteLength(s)]: the length in bytes of the UTF-8 encoding of
    a string of UTF-16 code units, a surrogate pair taking four bytes
    and a lone surrogate three. *)
Fixpoint byteLength (s : JS.str) : Z :=
  match s with
  | [] => 0
  | u :: rest =>
      if u <? 128 then 1 + byteLength rest
      else if u <? 2048 then 2 + byteLength rest
      else if (55296 <=? u) && (u <? 56320) then
        match rest with
        | v :: rest' =>
            if (56320 <=? v) && (v <? 57344)
            then 4 + byteLength rest'
            else 3 + byteLength rest
        | [] => 3
        end
      else 3 + byteLength rest
  end.

(** [s.slice(a, b)] for indices that are not negative. *)
Definition slice (s : JS.str) (a b : nat) : JS.str :=
  firstn (b - a) (skipn a s).

(** What [getWords] reads: the lines [getline(startLine, endLine)]
    returns, [startLine], the two configured regexp lists, and the
    regular expression engine, [exec regexp line lastIndex] standing for
    [new RegExp(regexp, "gu").exec(line)] run with that [lastIndex]: no
    match, or the match's [index] and the [lastIndex] it leaves. *)
Record Buffer : Type := mkBuffer {
  lines : list JS.str;
  startLine : Z;
  fuzzy_motion_word_regexp_list : list JS.str;
  fuzzy_motion_word_filter_regexp_list : list JS.str;
  exec : JS.str -> JS.str -> nat -> option (nat * nat)
}.

(** The word pushed for a match. *)
Definition wordAt (b : Buffer) (line : JS.str) (lineNumber index lastIndex : nat)
  : Word :=
  mkWord (slice line index lastIndex)
         (mkPos (Z.of_nat lineNumber + startLine b)
                (byteLength (slice line 0 index) + 1)).

(** [while ((matchArray = regexp.exec(line) ?? undefined)) { ... }]:
    [None] when the loop has not ended after [fuel] iterations. *)
Fixpoint scan (fuel : nat) (b : Buffer) (regexp line : JS.str)
  (lineNumber lastIndex : nat) (words : list Word) : option (list Word) :=
  match fuel with
  | O => None
  | S fuel' =>
      match exec b regexp line lastIndex with
      | None => Some words
      | Some (index, lastIndex') =>
          scan fuel' b regexp line lineNumber lastIndex'
               (words ++ [wordAt b line lineNumber index lastIndex'])
      end
  end.

(** [for (const regexp of regexpList)]; a regexp starts each line with
    [lastIndex] 0, where the failed [exec] that ended its last loop left
    it. *)
Fixpoint eachRegexp (fuel : nat) (b : Buffer) (regexpList : list JS.str)
  (line : JS.str) (lineNumber : nat) (words : list Word)
  : option (list Word) :=
  match regexpList with
  | [] => Some words
  | regexp :: rest =>
      match scan fuel b regexp line lineNumber 0 words with
      | Some words' => eachRegexp fuel b rest line lineNumber words'
      | None => None
      end
  end.

(** [for (const [lineNumber, line] of lines.entries())] *)
Fixpoint eachLine (fuel : nat) (b : Buffer) (ls : list JS.str)
  (lineNumber : nat) (words : list Word) : option (list Word) :=
  match ls with
  | [] => Some words
  | line :: rest =>
      match eachRegexp fuel b (fuzzy_motion_word_regexp_list b) line
                       lineNumber words with
      | Some words' => eachLine fuel b rest (S lineNumber) words'
      | None => None
      end
  end.

(** [text.match(regexp) != null] for a global regexp: some match from
    [lastIndex] 0. *)
Definition matchNotNull (b : Buffer) (regexp text : JS.str) : bool :=
  match exec b regexp text 0 with
  | Some _ => true
  | None => false
  end.

(** [for (const regexp of filterRegexpList) words = words.filter(...)] *)
Definition applyFilters (b : Buffer) (filterRegexpList : list JS.str)
  (words : list Word) : list Word :=
  fold_left
    (fun ws regexp => filter (fun word => matchNotNull b regexp (text word)) ws)
    filterRegexpList words.

(** [getWords], each [while] loop allowed [fuel] iterations. *)
Definition getWords (fuel : nat) (b : Buffer) : option (list Word) :=
  match eachLine fuel b (lines b) 0 [] with
  | Some words =>
      Some (applyFilters b (fuzzy_motion_word_filter_regexp_list b) words)
  | None => None
  end.


(** A word that is the match of a word regexp in a line of the buffer. *)
Definition extracted (b : Buffer) (w : Word) : Prop :=
  exists n line regexp lastIndex index lastIndex',
    nth_error (lines b) n = Some line
    /\ In regexp (fuzzy_motion_word_regexp_list b)
    /\ exec b regexp line lastIndex = Some (index, lastIndex')
    /\ w = wordAt b line n index lastIndex'.

(** *** A buffer for the examples

    A small engine for character-class patterns: a match is a maximal
    run of code units of the class. *)

Fixpoint run (p : Z -> bool) (s : JS.str) : nat :=
  match s with
  | u :: rest => if p u then S (run p rest) else O
  | [] => O
  end.

Fixpoint firstWhere (p : Z -> bool) (s : JS.str) (at_ : nat) : option nat :=
  match s with
  | [] => None
  | u :: rest => if p u then Some at_ else firstWhere p rest (S at_)
  end.

Definition execClass (p : Z -> bool) (line : JS.str) (lastIndex : nat)
  : option (nat * nat) :=
  match firstWhere p (skipn lastIndex line) lastIndex with
  | Some index => Some (index, (index + run p (skipn index line))%nat)
  | None => None
  end.

(** ["o+"] is the class of the letter o; every other pattern stands for
    ["[a-z]+"]. *)
Definition execSample (regexp line : JS.str) (lastIndex : nat)
  : option (nat * nat) :=
  if JS.eqb regexp (JS.lit "o+")
  then execClass (Z.eqb 111) line lastIndex
  else execClass (fun u => (97 <=? u) && (u <=? 122)) line lastIndex.

(** Lines 3 and 4 of a buffer, words [a-z]+, kept when they hold an o. *)
Definition sample : Buffer :=
  mkBuffer [JS.lit "foo far"; JS.lit "  of"] 3
           [JS.lit "[a-z]+"] [JS.lit "o+"] execSample.

(** An engine whose pattern matches the empty string at the start. *)
Definition stuck : Buffer :=
  mkBuffer [JS.lit "foo"] 1 [JS.lit "x*"] []
           (fun _ _ lastIndex => Some (lastIndex, lastIndex)).

End Words.


(** * Proofs *)

(** ** Strings and the comparison predicates *)

Lemma JS_eqb_eq (a b : JS.str) : JS.eqb a b = true <-> a = b.
Proof.
  revert b; induction a as [|x a IH]; intros [|y b]; simpl;
    try (split; congruence).
  rewrite andb_true_iff, Z.eqb_eq, IH.
  split; [intros [-> ->]; reflexivity | intros H; inversion H; auto].
Qed.

Lemma JS_eqb_refl (a : JS.str) : JS.eqb a a = true.
Proof. apply JS_eqb_eq; reflexivity. Qed.

Lemma JS_eqb_neq (a b : JS.str) : JS.eqb a b = false <-> a <> b.
Proof.
  rewrite <- JS_eqb_eq. destruct (JS.eqb a b); split; congruence.
Qed.

Lemma includes_In (arr : list JS.str) (s : JS.str) :
  includes arr (Some s) = true <-> In s arr.
Proof.
  simpl. rewrite existsb_exists. split.
  - intros (x & Hx & E). apply JS_eqb_eq in E. subst; assumption.
  - intros H. exists s. split; [assumption | apply JS_eqb_refl].
Qed.

Lemma includes_not_In (arr : list JS.str) (s : JS.str) :
  includes arr (Some s) = false <-> ~ In s arr.
Proof.
  rewrite <- includes_In. destruct (includes arr (Some s)); split; congruence.
Qed.

Lemma samePlace_place (cur v : Result) :
  samePlace cur v = true <-> place v = place cur.
Proof.
  unfold samePlace, place. rewrite andb_true_iff, !Z.eqb_eq.
  split; [intros [-> ->]; reflexivity | intros H; inversion H; auto].
Qed.

Lemma sameIdentity_ident (entry : Result) (cache : Target.t) :
  sameIdentity entry cache = true <-> tident cache = ident entry.
Proof.
  unfold sameIdentity, tident, ident. rewrite !andb_true_iff, !Z.eqb_eq.
  split; [intros [[-> ->] ->]; reflexivity | intros H; inversion H; auto].
Qed.

Lemma ident_place (r : Result) (t : Target.t) :
  tident t = ident r -> tplace t = place r.
Proof.
  unfold tident, ident, tplace, place. intros H; inversion H; congruence.
Qed.

Lemma tident_tplace (t1 t2 : Target.t) :
  tident t1 = tident t2 -> tplace t1 = tplace t2.
Proof.
  unfold tident, tplace. intros H; inversion H; congruence.
Qed.

Lemma tplace_mkTarget (r : Result) (ch : JS.str) :
  tplace (mkTarget r ch) = place r.
Proof. reflexivity. Qed.

Lemma tident_mkTarget (r : Result) (ch : JS.str) :
  tident (mkTarget r ch) = ident r.
Proof. reflexivity. Qed.

(** [find] as a membership test. *)
Lemma find_none_iff {A} (f : A -> bool) (l : list A) :
  find f l = None <-> forall x, In x l -> f x = false.
Proof.
  split; [apply find_none |].
  induction l as [|a l IH]; simpl; intros H; [reflexivity|].
  rewrite (H a (or_introl eq_refl)). apply IH. intros x Hx. apply H; auto.
Qed.

Lemma find_existsb {A} (f : A -> bool) (l : list A) :
  existsb f l = match find f l with Some _ => true | None => false end.
Proof.
  induction l as [|a l IH]; simpl; [reflexivity|].
  destruct (f a); simpl; auto.
Qed.

Lemma NoDup_map_inj {A B} (f : A -> B) (l : list A) (a b : A) :
  NoDup (map f l) -> In a l -> In b l -> f a = f b -> a = b.
Proof.
  induction l as [|x l IH]; simpl; [tauto|].
  intros ND Ha Hb E. inversion ND as [|? ? Hx ND']; subst.
  destruct Ha as [->|Ha], Hb as [->|Hb]; auto.
  - exfalso. apply Hx. rewrite E. apply in_map. assumption.
  - exfalso. apply Hx. rewrite <- E. apply in_map. assumption.
Qed.

(** ** The match aggregator *)

Lemma dedup_snoc (l : list Result) (x : Result) :
  dedup (l ++ [x]) =
  if existsb (samePlace x) (dedup l) then dedup l else dedup l ++ [x].
Proof.
  unfold dedup. rewrite fold_left_app. simpl. unfold dedupStep at 1.
  rewrite find_existsb. destruct (find _ _); reflexivity.
Qed.

Lemma dedup_nil : dedup [] = [].
Proof. reflexivity. Qed.

(** The kept entries cover exactly the places met so far. *)
Lemma dedup_places (l : list Result) (p : Z * Z) :
  In p (map place (dedup l)) <-> In p (map place l).
Proof.
  revert p. induction l as [|x l IH] using rev_ind; intros p; [reflexivity|].
  rewrite dedup_snoc, map_app, in_app_iff; simpl.
  destruct (existsb (samePlace x) (dedup l)) eqn:E.
  - rewrite IH. split; [auto|]. intros [H|[<-|[]]]; [assumption|].
    apply existsb_exists in E. destruct E as (y & Hy & Ey).
    apply samePlace_place in Ey. rewrite <- Ey. apply IH.
    apply in_map; assumption.
  - rewrite map_app, in_app_iff, IH. reflexivity.
Qed.

(** "Already kept" and "met earlier" are the same test. *)
Lemma dedup_kept_earlier (l : list Result) (x : Result) :
  existsb (samePlace x) (dedup l) = existsb (samePlace x) l.
Proof.
  apply eq_true_iff_eq. rewrite !existsb_exists.
  split; intros (y & Hy & Ey); apply samePlace_place in Ey.
  - assert (H : In (place x) (map place l)).
    { apply dedup_places. rewrite <- Ey. apply in_map; assumption. }
    apply in_map_iff in H. destruct H as (z & Ez & Hz).
    exists z. split; [assumption | apply samePlace_place; assumption].
  - assert (H : In (place x) (map place (dedup l))).
    { apply dedup_places. rewrite <- Ey. apply in_map; assumption. }
    apply in_map_iff in H. destruct H as (z & Ez & Hz).
    exists z. split; [assumption | apply samePlace_place; assumption].
Qed.

Lemma dedup_NoDup (l : list Result) : NoDup (map place (dedup l)).
Proof.
  induction l as [|x l IH] using rev_ind; [constructor|].
  rewrite dedup_snoc.
  destruct (existsb (samePlace x) (dedup l)) eqn:E; [assumption|].
  rewrite map_app; simpl.
  apply NoDup_app; [assumption | repeat constructor; simpl; tauto |].
  intros p Hp [<-|[]].
  apply in_map_iff in Hp. destruct Hp as (y & Ey & Hy).
  assert (existsb (samePlace x) (dedup l) = true); [|congruence].
  apply existsb_exists. exists y. split; [assumption|].
  apply samePlace_place; assumption.
Qed.

Lemma Subseq_refl {A} (l : list A) : Subseq l l.
Proof. induction l; constructor; assumption. Qed.

Lemma Subseq_app {A} (a b c d : list A) :
  Subseq a b -> Subseq c d -> Subseq (a ++ c) (b ++ d).
Proof.
  induction 1; simpl; intros H'; auto.
  - apply Subseq_skip; auto.
  - apply Subseq_keep; auto.
Qed.

Lemma Subseq_In {A} (a b : list A) (x : A) : Subseq a b -> In x a -> In x b.
Proof. induction 1; simpl; intuition. Qed.

Lemma Subseq_NoDup_map {A B} (f : A -> B) (a b : list A) :
  Subseq a b -> NoDup (map f b) -> NoDup (map f a).
Proof.
  induction 1; simpl; intros ND; auto; inversion ND as [|? ? Hx ND']; subst; auto.
  constructor; auto. intros H'. apply Hx.
  apply in_map_iff in H'. destruct H' as (y & <- & Hy).
  apply in_map. eapply Subseq_In; eassumption.
Qed.

Lemma dedup_Subseq (l : list Result) : Subseq (dedup l) l.
Proof.
  induction l as [|x l IH] using rev_ind; [constructor|].
  rewrite dedup_snoc. destruct (existsb _ _).
  - rewrite <- (app_nil_r (dedup l)). apply Subseq_app; [assumption|].
    repeat constructor.
  - apply Subseq_app; [assumption | apply Subseq_refl].
Qed.

(** A list with no repeated place is left as it is. *)
Lemma dedup_fixed (l : list Result) : NoDup (map place l) -> dedup l = l.
Proof.
  induction l as [|x l IH] using rev_ind; [reflexivity|].
  rewrite map_app; simpl. intros ND.
  rewrite dedup_snoc, dedup_kept_earlier.
  apply NoDup_remove in ND. rewrite app_nil_r in ND. destruct ND as [ND Hx].
  rewrite (IH ND).
  destruct (existsb (samePlace x) l) eqn:E; [|reflexivity].
  exfalso. apply Hx. apply existsb_exists in E. destruct E as (y & Hy & Ey).
  apply samePlace_place in Ey. rewrite <- Ey. apply in_map; assumption.
Qed.

Lemma aggregate_eq (c : Config) (e : Env) (input : JS.str)
  (words : list Word) (s : State) :
  fst (aggregate c e input words s) = dedup (concatenated c e input words).
Proof.
  unfold aggregate, concatenated, runFzf, runKensaku, bind, ret, emit.
  destruct (includes _ (Some (JS.lit "fzf")));
    destruct (includes _ (Some (JS.lit "kensaku"))); reflexivity.
Qed.

Lemma aggregate_cache (c : Config) (e : Env) (input : JS.str)
  (words : list Word) (s : State) :
  targetCache (snd (aggregate c e input words s)) = targetCache s.
Proof.
  unfold aggregate, runFzf, runKensaku, bind, ret, emit.
  destruct (includes _ (Some (JS.lit "fzf")));
    destruct (includes _ (Some (JS.lit "kensaku"))); reflexivity.
Qed.


(** ** The inner [while] of the label assigner *)

(** The loop equation: the bound on the number of iterations is never
    what stops the loop. *)
Lemma skipCached_eq (labels cachedLabels : list JS.str) (i : nat) :
  skipCached labels cachedLabels i =
  if skipCond labels cachedLabels i
  then skipCached labels cachedLabels (S i)
  else i.
Proof.
  unfold skipCached.
  destruct (length labels - i)%nat as [|n] eqn:E; simpl.
  - unfold skipCond. replace (i <? length labels)%nat with false.
    + rewrite andb_false_r. reflexivity.
    + symmetry. apply Nat.ltb_ge. lia.
  - replace (length labels - S i)%nat with n by lia. reflexivity.
Qed.

Lemma skipCond_true (labels cachedLabels : list JS.str) (i : nat) :
  skipCond labels cachedLabels i = true <->
  exists l, nth_error labels i = Some l /\ In l cachedLabels.
Proof.
  unfold skipCond. rewrite andb_true_iff. split.
  - intros [H _]. destruct (nth_error labels i) as [l|]; [|discriminate].
    exists l. split; [reflexivity | apply includes_In; assumption].
  - intros (l & E & H). rewrite E. split; [apply includes_In; assumption|].
    apply Nat.ltb_lt. apply nth_error_Some. congruence.
Qed.

(** Where the loop stops: at the first index from [i] on whose label is
    free, or at the end of the alphabet. *)
Lemma skipCached_spec (labels cachedLabels : list JS.str) (i : nat) :
  let j := skipCached labels cachedLabels i in
  (i <= j)%nat
  /\ (i <= length labels -> j <= length labels)%nat
  /\ (forall k l, (i <= k < j)%nat -> nth_error labels k = Some l ->
                  In l cachedLabels)
  /\ (forall l, nth_error labels j = Some l -> ~ In l cachedLabels).
Proof.
  remember (length labels - i)%nat as n eqn:En.
  revert i En. induction n as [|n IH]; intros i En; rewrite skipCached_eq.
  - assert (Hc : skipCond labels cachedLabels i = false).
    { unfold skipCond. replace (i <? length labels)%nat with false.
      - apply andb_false_r.
      - symmetry. apply Nat.ltb_ge. lia. }
    rewrite Hc. simpl. repeat split; try lia.
    intros l El. exfalso.
    assert (i < length labels)%nat by (apply nth_error_Some; congruence). lia.
  - destruct (skipCond labels cachedLabels i) eqn:Hc.
    + assert (Hi : (i < length labels)%nat).
      { apply skipCond_true in Hc. destruct Hc as (l & El & _).
        apply nth_error_Some. congruence. }
      destruct (IH (S i) ltac:(lia)) as (H1 & H2 & H3 & H4).
      simpl. repeat split; try lia; [|assumption].
      intros k l Hk El.
      destruct (Nat.eq_dec k i) as [->|Hne].
      * apply skipCond_true in Hc. destruct Hc as (l' & El' & Hl').
        congruence.
      * apply (H3 k l); [lia | assumption].
    + simpl. repeat split; try lia.
      intros l El Hin.
      assert (skipCond labels cachedLabels i = true); [|congruence].
      apply skipCond_true. exists l. auto.
Qed.

(** ** One step of the label assigner *)

Lemma labelStep_cases (cache : list Target.t) (labels : option (list JS.str))
  (st : Labeling) (entry : Result) :
  let st' := labelStep cache labels st entry in
  (exists ct, find (sameIdentity entry) cache = Some ct
     /\ labeledTargets st' = labeledTargets st ++ [mkTarget entry (Target.char ct)]
     /\ cachedLabels st' = cachedLabels st)
  \/ (find (sameIdentity entry) cache = None
     /\ labeledTargets st' = labeledTargets st
     /\ cachedLabels st' = cachedLabels st)
  \/ (exists ls l, find (sameIdentity entry) cache = None
     /\ labels = Some ls /\ In l ls /\ ~ In l (cachedLabels st)
     /\ labeledTargets st' = labeledTargets st ++ [mkTarget entry l]
     /\ cachedLabels st' = cachedLabels st ++ [l]).
Proof.
  unfold labelStep.
  destruct (find (sameIdentity entry) cache) as [ct|] eqn:Ef.
  - left. exists ct. auto.
  - right. destruct labels as [ls|]; [|left; auto].
    destruct (labelIndex st <? length ls)%nat; [|left; auto].
    destruct (length ls <=? skipCached ls (cachedLabels st) (labelIndex st))%nat;
      [left; auto|].
    destruct (nth_error ls (skipCached ls (cachedLabels st) (labelIndex st)))
      as [l|] eqn:El; [|left; auto].
    right. exists ls, l. simpl. repeat split; auto.
    + eapply nth_error_In; eassumption.
    + destruct (skipCached_spec ls (cachedLabels st) (labelIndex st))
        as (_ & _ & _ & H). apply H; assumption.
Qed.

(** What the loop appends: an order-preserving selection of the entries,
    each built from its entry, a cached entry keeping the cached char. *)
Lemma fold_labelStep_struct (cache : list Target.t)
  (labels : option (list JS.str)) (rs : list Result) (st : Labeling) :
  exists X,
    labeledTargets (fold_left (labelStep cache labels) rs st)
    = labeledTargets st ++ X
    /\ Subseq (map tplace X) (map place rs)
    /\ (forall t, In t X -> exists r, In r rs /\ t = mkTarget r (Target.char t)
          /\ (forall ct, find (sameIdentity r) cache = Some ct ->
                         Target.char t = Target.char ct)
          /\ (find (sameIdentity r) cache = None ->
              exists ls, labels = Some ls /\ In (Target.char t) ls)).
Proof.
  revert st. induction rs as [|r rs IH]; intros st; simpl.
  - exists []. rewrite app_nil_r. repeat split; [constructor | intros t []].
  - destruct (IH (labelStep cache labels st r)) as (X & EX & SX & HX).
    assert (HX' : forall t, In t X -> exists r0, (r = r0 \/ In r0 rs)
       /\ t = mkTarget r0 (Target.char t)
       /\ (forall ct, find (sameIdentity r0) cache = Some ct ->
                      Target.char t = Target.char ct)
       /\ (find (sameIdentity r0) cache = None ->
              exists ls, labels = Some ls /\ In (Target.char t) ls)).
    { intros t Ht. destruct (HX t Ht) as (r0 & H0 & H1). exists r0. auto. }
    destruct (labelStep_cases cache labels st r)
      as [(ct & Ef & El & _) | [(Ef & El & _) | (ls & l & Ef & Els & Hl & _ & El & _)]].
    + exists (mkTarget r (Target.char ct) :: X).
      rewrite EX, El, <- app_assoc. simpl. repeat split.
      * apply Subseq_keep; assumption.
      * intros t [<-|Ht]; [|auto]. exists r. repeat split; auto; simpl.
        -- intros ct' E'. congruence.
        -- congruence.
    + exists X. rewrite EX, El. repeat split; [apply Subseq_skip|]; auto.
    + exists (mkTarget r l :: X).
      rewrite EX, El, <- app_assoc. simpl. repeat split.
      * apply Subseq_keep; assumption.
      * intros t [<-|Ht]; [|auto]. exists r. repeat split; auto; simpl.
        -- intros ct' E'. congruence.
        -- intros _. exists ls. auto.
Qed.

Lemma assignLabels_struct (cache : list Target.t)
  (labels : option (list JS.str)) (rs : list Result) :
  Subseq (map tplace (assignLabels cache labels rs)) (map place rs)
  /\ (forall t, In t (assignLabels cache labels rs) ->
        exists r, In r rs /\ t = mkTarget r (Target.char t)
          /\ (forall ct, find (sameIdentity r) cache = Some ct ->
                         Target.char t = Target.char ct)
          /\ (find (sameIdentity r) cache = None ->
              exists ls, labels = Some ls /\ In (Target.char t) ls)).
Proof.
  unfold assignLabels.
  destruct (fold_labelStep_struct cache labels rs
              (mkLabeling 0 [] (map Target.char cache))) as (X & EX & H).
  rewrite EX. exact H.
Qed.

Lemma assignLabels_places (cache : list Target.t)
  (labels : option (list JS.str)) (rs : list Result) :
  NoDup (map place rs) -> NoDup (map tplace (assignLabels cache labels rs)).
Proof.
  intros ND. destruct (assignLabels_struct cache labels rs) as [S _].
  revert S ND. generalize (map tplace (assignLabels cache labels rs)).
  generalize (map place rs). intros b a S.
  induction S; intros ND; auto; inversion ND as [|? ? Hx ND']; subst; auto.
  constructor; auto. intros Hin. apply Hx. eapply Subseq_In; eassumption.
Qed.

(** Every output char is a cached char or a letter of the alphabet. *)
Lemma assignLabels_chars (cache : list Target.t)
  (labels : list JS.str) (rs : list Result) (t : Target.t) :
  In t (assignLabels cache (Some labels) rs) ->
  In (Target.char t) (map Target.char cache) \/ In (Target.char t) labels.
Proof.
  intros Ht. destruct (assignLabels_struct cache (Some labels) rs) as [_ H].
  destruct (H t Ht) as (r & _ & _ & Hc & Hn).
  destruct (find (sameIdentity r) cache) as [ct|] eqn:Ef.
  - left. rewrite (Hc ct eq_refl). apply in_map.
    apply find_some in Ef. tauto.
  - right. destruct (Hn eq_refl) as (ls & E & Hin). congruence.
Qed.

(** ** Distinct chars *)

Section Chars.

Variable cache : list Target.t.
Variable labels : option (list JS.str).
Hypothesis cache_chars : NoDup (map Target.char cache).

Lemma charsInv_step (r : Result) (rest : list Result) (st : Labeling) :
  NoDup (map place (r :: rest)) ->
  charsInv cache (r :: rest) st -> charsInv cache rest (labelStep cache labels st r).
Proof.
  intros ND (I1 & I2 & I3 & I4 & I5).
  inversion ND as [|? ? Hr ND']; subst.
  assert (Hnew : forall ch t r', In t (labeledTargets st ++ [mkTarget r ch]) ->
            In r' rest -> tplace t <> place r').
  { intros ch t r' Ht Hr'. apply in_app_iff in Ht.
    destruct Ht as [Ht|[<-|[]]].
    - apply I5; simpl; auto.
    - rewrite tplace_mkTarget. intros E. apply Hr. rewrite E.
      apply in_map; assumption. }
  destruct (labelStep_cases cache labels st r)
    as [(ct & Ef & El & Ec) | [(Ef & El & Ec) | (ls & l & Ef & Els & Hl & Hfree & El & Ec)]];
    unfold charsInv; rewrite El, Ec.
  - (* carried forward *)
    pose proof (find_some _ _ Ef) as [Hct Hid].
    apply sameIdentity_ident in Hid.
    repeat split; auto.
    + rewrite map_app; simpl. apply NoDup_app; auto.
      * repeat constructor; simpl; tauto.
      * intros ch Hch [<-|[]].
        apply in_map_iff in Hch. destruct Hch as (t & Et & Ht).
        destruct (I4 t Ht) as (ct' & Hct' & Hid' & Ech').
        { rewrite Et. apply in_map; assumption. }
        assert (ct' = ct).
        { apply (NoDup_map_inj Target.char cache); auto. congruence. }
        subst ct'. apply (I5 t r Ht); [simpl; auto|].
        rewrite <- (ident_place r ct Hid). symmetry.
        apply tident_tplace; assumption.
    + intros t Ht. apply in_app_iff in Ht. destruct Ht as [Ht|[<-|[]]]; auto.
      simpl. apply I2. apply in_map; assumption.
    + intros t Ht Hc. apply in_app_iff in Ht. destruct Ht as [Ht|[<-|[]]]; auto.
      exists ct. simpl. auto.
    + apply Hnew.
  - (* dropped *)
    repeat split; auto. intros t r' Ht Hr'. apply I5; simpl; auto.
  - (* a fresh label *)
    repeat split; auto.
    + rewrite map_app; simpl. apply NoDup_app; auto.
      * repeat constructor; simpl; tauto.
      * intros ch Hch [<-|[]].
        apply in_map_iff in Hch. destruct Hch as (t & Et & Ht).
        apply Hfree. rewrite <- Et. apply I3; assumption.
    + intros ch Hch. apply in_app_iff. left. apply I2; assumption.
    + intros t Ht. apply in_app_iff in Ht. apply in_app_iff.
      destruct Ht as [Ht|[<-|[]]]; [left; auto | right; simpl; auto].
    + intros t Ht Hc. apply in_app_iff in Ht. destruct Ht as [Ht|[<-|[]]]; auto.
      simpl in Hc. exfalso. apply Hfree. apply I2; assumption.
    + apply Hnew.
Qed.

Lemma charsInv_fold (rs : list Result) (st : Labeling) :
  NoDup (map place rs) -> charsInv cache rs st ->
  charsInv cache [] (fold_left (labelStep cache labels) rs st).
Proof.
  revert st. induction rs as [|r rs IH]; intros st ND I; simpl; auto.
  apply IH.
  - inversion ND; assumption.
  - apply charsInv_step; assumption.
Qed.

Lemma assignLabels_NoDup_chars (rs : list Result) :
  NoDup (map place rs) ->
  NoDup (map Target.char (assignLabels cache labels rs)).
Proof.
  intros ND. unfold assignLabels.
  apply (charsInv_fold rs (mkLabeling 0 [] (map Target.char cache))); auto.
  unfold charsInv; simpl. repeat split; try tauto.
  - constructor.
  - apply incl_refl.
Qed.

End Chars.

Lemma assignLabels_Distinct (cache : list Target.t)
  (labels : option (list JS.str)) (rs : list Result) :
  NoDup (map Target.char cache) -> NoDup (map place rs) ->
  Distinct (assignLabels cache labels rs).
Proof.
  intros Hc Hr. split.
  - apply assignLabels_NoDup_chars; assumption.
  - apply assignLabels_places; assumption.
Qed.


(** ** A fresh cache: the alphabet is handed out in order *)

Lemma In_firstn_index {A} (l : list A) (k : nat) (x : A) :
  In x (firstn k l) <-> exists m, (m < k)%nat /\ nth_error l m = Some x.
Proof.
  split.
  - intros H. apply In_nth_error in H. destruct H as (m & E).
    rewrite nth_error_firstn in E.
    destruct (m <? k)%nat eqn:Hm; [|discriminate].
    exists m. split; [apply Nat.ltb_lt; assumption | assumption].
  - intros (m & Hm & E). apply (nth_error_In _ m).
    rewrite nth_error_firstn. apply Nat.ltb_lt in Hm. rewrite Hm. assumption.
Qed.

Lemma skipCached_fresh (labels : list JS.str) (i k : nat) :
  NoDup labels -> (i <= k <= length labels)%nat ->
  skipCached labels (firstn k labels) i = k.
Proof.
  intros ND Hik.
  destruct (skipCached_spec labels (firstn k labels) i) as (H1 & H2 & H3 & H4).
  set (j := skipCached labels (firstn k labels) i) in *.
  assert (Hj : (j <= length labels)%nat) by (apply H2; lia).
  assert (Hle : (j <= k)%nat).
  { destruct (le_lt_dec j k) as [|Hlt]; [assumption|exfalso].
    destruct (nth_error labels k) as [l|] eqn:El.
    - pose proof (H3 k l ltac:(lia) El) as Hin.
      apply In_firstn_index in Hin. destruct Hin as (m & Hm & Em).
      assert (m = k); [|lia].
      apply (proj1 (NoDup_nth_error labels) ND).
      + apply nth_error_Some. congruence.
      + congruence.
    - apply nth_error_None in El. lia. }
  destruct (Nat.eq_dec j k) as [|Hne]; [assumption|exfalso].
  destruct (nth_error labels j) as [l|] eqn:El.
  - apply (H4 l eq_refl). apply In_firstn_index. exists j. split; [lia|assumption].
  - apply nth_error_None in El. lia.
Qed.

Lemma firstn_S_nth {A} (l : list A) (k : nat) (x : A) :
  nth_error l k = Some x -> firstn k l ++ [x] = firstn (S k) l.
Proof.
  revert k. induction l as [|a l IH]; intros [|k]; simpl; try discriminate.
  - intros E. inversion E. reflexivity.
  - intros E. rewrite (IH k E). reflexivity.
Qed.

Lemma skipn_nth {A} (l : list A) (k : nat) (x : A) :
  nth_error l k = Some x -> skipn k l = x :: skipn (S k) l.
Proof.
  revert k. induction l as [|a l IH]; intros [|k]; simpl; try discriminate.
  - intros E. inversion E. reflexivity.
  - intros E. rewrite (IH k E). reflexivity.
Qed.

Lemma zipLabels_nil (rs : list Result) : zipLabels rs [] = [].
Proof. unfold zipLabels. rewrite combine_nil. reflexivity. Qed.

Lemma fold_fresh (labels : list JS.str) (rs : list Result) :
  NoDup labels ->
  forall (k i : nat) (acc : list Target.t),
    (i <= k <= length labels)%nat ->
    labeledTargets
      (fold_left (labelStep [] (Some labels)) rs
                 (mkLabeling i acc (firstn k labels)))
    = acc ++ zipLabels rs (skipn k labels).
Proof.
  intros ND. induction rs as [|r rs IH]; intros k i acc Hik; simpl.
  - rewrite app_nil_r. reflexivity.
  - unfold labelStep at 2. simpl.
    destruct (i <? length labels)%nat eqn:Hi.
    + rewrite (skipCached_fresh labels i k ND Hik).
      destruct (length labels <=? k)%nat eqn:Hk.
      * apply Nat.leb_le in Hk. rewrite (IH k k acc ltac:(lia)).
        rewrite skipn_all2 by lia. rewrite !zipLabels_nil. reflexivity.
      * apply Nat.leb_gt in Hk.
        destruct (nth_error labels k) as [l|] eqn:El.
        -- rewrite (firstn_S_nth labels k l El).
           rewrite (IH (S k) k _ ltac:(lia)).
           rewrite (skipn_nth labels k l El), <- app_assoc. reflexivity.
        -- apply nth_error_None in El. lia.
    + apply Nat.ltb_ge in Hi.
      rewrite (IH k i acc Hik).
      rewrite skipn_all2 by lia. rewrite !zipLabels_nil. reflexivity.
Qed.

Lemma assignLabels_fresh (labels : list JS.str) (rs : list Result) :
  NoDup labels -> assignLabels [] (Some labels) rs = zipLabels rs labels.
Proof.
  intros ND. unfold assignLabels.
  apply (fold_fresh labels rs ND 0%nat 0%nat []). lia.
Qed.

Lemma zipLabels_length (rs : list Result) (labels : list JS.str) :
  length (zipLabels rs labels) = Nat.min (length rs) (length labels).
Proof. unfold zipLabels. rewrite length_map, length_combine. reflexivity. Qed.

Lemma zipLabels_firstn (rs : list Result) (labels : list JS.str) :
  zipLabels rs labels = zipLabels (firstn (length labels) rs) labels.
Proof.
  unfold zipLabels. f_equal. revert labels.
  induction rs as [|r rs IH]; intros [|l labels]; simpl; auto.
  rewrite <- IH. reflexivity.
Qed.

(** ** getTarget as a whole *)

Lemma getTarget_empty (c : Config) (e : Env) (words : list Word)
  (labels : option (list JS.str)) (s : State) :
  getTarget c e words [] labels s = ([], s).
Proof. reflexivity. Qed.

Lemma getTarget_nonempty (c : Config) (e : Env) (words : list Word)
  (input : JS.str) (labels : option (list JS.str)) (s : State) :
  input <> [] ->
  let out := assignLabels (targetCache s) labels
                          (dedup (concatenated c e input words)) in
  getTarget c e words input labels s
  = (out, with_cache out (snd (aggregate c e input words s))).
Proof.
  intros Hne. unfold getTarget.
  destruct (JS.eqb input []) eqn:E; [apply JS_eqb_eq in E; contradiction|].
  unfold bind at 1.
  pose proof (aggregate_eq c e input words s) as Ha.
  pose proof (aggregate_cache c e input words s) as Hc.
  destruct (aggregate c e input words s) as [rs s1]. simpl in *. subst rs.
  unfold bind, get, ret, with_cache, set_targetCache. simpl.
  rewrite Hc. reflexivity.
Qed.

(** The output and the cache it leaves, in both cases. *)
Lemma getTarget_out (c : Config) (e : Env) (words : list Word)
  (input : JS.str) (labels : option (list JS.str)) (s : State) :
  (input = [] /\ fst (getTarget c e words input labels s) = []
   /\ snd (getTarget c e words input labels s) = s)
  \/ (input <> []
      /\ fst (getTarget c e words input labels s)
         = assignLabels (targetCache s) labels
                        (dedup (concatenated c e input words))
      /\ targetCache (snd (getTarget c e words input labels s))
         = fst (getTarget c e words input labels s)).
Proof.
  destruct input as [|u input].
  - left. auto.
  - right. split; [discriminate|].
    rewrite getTarget_nonempty by discriminate. simpl. auto.
Qed.

Lemma getTarget_places (c : Config) (e : Env) (words : list Word)
  (input : JS.str) (labels : option (list JS.str)) (s : State) :
  NoDup (map tplace (fst (getTarget c e words input labels s))).
Proof.
  destruct (getTarget_out c e words input labels s)
    as [(_ & -> & _) | (_ & -> & _)]; [constructor|].
  apply assignLabels_places, dedup_NoDup.
Qed.

Lemma getTarget_Distinct (c : Config) (e : Env) (words : list Word)
  (input : JS.str) (labels : option (list JS.str)) (s : State) :
  NoDup (map Target.char (targetCache s)) ->
  Distinct (fst (getTarget c e words input labels s))
  /\ NoDup (map Target.char (targetCache (snd (getTarget c e words input labels s)))).
Proof.
  intros Hc.
  destruct (getTarget_out c e words input labels s)
    as [(_ & E1 & E2) | (_ & E1 & E2)].
  - rewrite E1, E2. split; [split; constructor | assumption].
  - rewrite E2, E1.
    assert (D : Distinct (assignLabels (targetCache s) labels
                            (dedup (concatenated c e input words)))).
    { apply assignLabels_Distinct; [assumption | apply dedup_NoDup]. }
    split; [exact D | exact (proj1 D)].
Qed.

Lemma reachable_chars (s : State) :
  reachable s -> NoDup (map Target.char (targetCache s)).
Proof.
  induction 1 as [s E | c e words input labels s _ IH | s s' _ IH E].
  - rewrite E. constructor.
  - apply getTarget_Distinct; assumption.
  - rewrite E. assumption.
Qed.

(** The chars stay within the alphabet. *)
Lemma getTarget_chars (c : Config) (e : Env) (words : list Word)
  (input : JS.str) (labels : list JS.str) (s : State) :
  incl (map Target.char (targetCache s)) labels ->
  incl (map Target.char (fst (getTarget c e words input (Some labels) s))) labels
  /\ incl (map Target.char
             (targetCache (snd (getTarget c e words input (Some labels) s))))
          labels.
Proof.
  intros Hc.
  destruct (getTarget_out c e words input (Some labels) s)
    as [(_ & E1 & E2) | (_ & E1 & E2)].
  - rewrite E1, E2. split; [intros x [] | assumption].
  - rewrite E2, E1.
    assert (H : incl (map Target.char
                        (assignLabels (targetCache s) (Some labels)
                           (dedup (concatenated c e input words)))) labels).
    { intros ch Hch. apply in_map_iff in Hch. destruct Hch as (t & <- & Ht).
      destruct (assignLabels_chars _ _ _ _ Ht) as [H|H]; auto. }
    split; exact H.
Qed.

Lemma filter_char_le1 (ts : list Target.t) (ch : JS.str) :
  NoDup (map Target.char ts) ->
  (length (filter (fun t => JS.eqb (Target.char t) ch) ts) <= 1)%nat.
Proof.
  induction ts as [|t ts IH]; simpl; intros ND; [lia|].
  inversion ND as [|? ? Hx ND']; subst.
  destruct (JS.eqb (Target.char t) ch) eqn:E; [|auto].
  apply JS_eqb_eq in E. simpl.
  destruct (filter (fun t => JS.eqb (Target.char t) ch) ts) as [|t' l] eqn:F;
    [simpl; lia|].
  exfalso. apply Hx.
  assert (H : In t' (filter (fun t => JS.eqb (Target.char t) ch) ts))
    by (rewrite F; simpl; auto).
  apply filter_In in H. destruct H as [Hin Ec]. apply JS_eqb_eq in Ec.
  rewrite E, <- Ec. apply in_map; assumption.
Qed.


(** ** Label stability *)

(** Two computations in a row, the cache untouched in between: a target
    of the second that has the identity triple of a target of the first
    has its char. *)
Lemma stable_pair (c : Config) (e : Env) (words : list Word)
  (labels : option (list JS.str)) (input1 input2 : JS.str) (s s1 : State)
  (t1 t2 : Target.t) :
  targetCache s1 = targetCache (snd (getTarget c e words input1 labels s)) ->
  In t1 (fst (getTarget c e words input1 labels s)) ->
  In t2 (fst (getTarget c e words input2 labels s1)) ->
  tident t1 = tident t2 ->
  Target.char t1 = Target.char t2.
Proof.
  intros Hs H1 H2 Hid.
  pose proof (getTarget_places c e words input1 labels s) as ND.
  destruct (getTarget_out c e words input1 labels s)
    as [(_ & E1 & _) | (_ & _ & Ec)]; [rewrite E1 in H1; destruct H1|].
  rewrite Ec in Hs.
  destruct (getTarget_out c e words input2 labels s1)
    as [(_ & E2 & _) | (_ & E2 & _)]; rewrite E2 in H2; [destruct H2|].
  destruct (assignLabels_struct (targetCache s1) labels
              (dedup (concatenated c e input2 words))) as [_ H].
  destruct (H t2 H2) as (r & _ & Et & Hc & _).
  assert (Hr : tident t2 = ident r) by (rewrite Et; reflexivity).
  destruct (find (sameIdentity r) (targetCache s1)) as [ct|] eqn:Ef.
  - rewrite (Hc ct eq_refl).
    apply find_some in Ef. destruct Ef as [Hin Hct].
    apply sameIdentity_ident in Hct. rewrite Hs in Hin.
    f_equal.
    apply (NoDup_map_inj tplace _ t1 ct ND H1 Hin).
    apply tident_tplace. congruence.
  - exfalso.
    assert (Hf : sameIdentity r t1 = false).
    { apply (find_none _ _ Ef). rewrite Hs. assumption. }
    assert (sameIdentity r t1 = true); [|congruence].
    apply sameIdentity_ident. congruence.
Qed.



(** ** The empty input *)

(** C4. Empty-input short-circuit: whatever the words, the enabled
    matchers, the alphabet and the cache, getTarget on the empty input
    returns the empty list and leaves the state as it was, so nothing is
    added to the trace and no matcher is invoked; the [targets] entry
    does the same after its cache reset.  On a non-empty input every
    enabled matcher is invoked and the trace shows it. *)
Theorem empty_input_short_circuit (c : Config) (e : Env) (words : list Word)
  (labels : option (list JS.str)) (s : State) :
  getTarget c e words [] labels s = ([], s)
  /\ targets c e [] s = ([], with_cache [] s)
  /\ trace (snd (targets c e [] s)) = trace s
  /\ (forall input, input <> [] ->
        includes (fuzzy_motion_matchers c) (Some (JS.lit "fzf")) = true ->
        In (InvokeFzf input)
           (trace (snd (getTarget c e words input labels s))))
  /\ (forall input, input <> [] ->
        includes (fuzzy_motion_matchers c) (Some (JS.lit "kensaku")) = true ->
        In (InvokeKensaku input)
           (trace (snd (getTarget c e words input labels s)))).
Proof.
  split; [reflexivity|]. split; [reflexivity|]. split; [reflexivity|].
  split; intros input Hne Hm; rewrite getTarget_nonempty by assumption;
    unfold with_cache, set_targetCache, aggregate, runFzf, runKensaku;
    cbn [snd trace]; rewrite Hm.
  - destruct (includes _ (Some (JS.lit "kensaku"))); simpl;
      repeat rewrite in_app_iff; simpl; tauto.
  - destruct (includes _ (Some (JS.lit "fzf"))); simpl;
      repeat rewrite in_app_iff; simpl; tauto.
Qed.

(** ** Uniqueness *)

(** C10. Every Target list getTarget produces from a cache a session can
    be in, and every such cache, has pairwise-distinct chars and
    pairwise-distinct effective positions; so at most one Target of the
    list carries a given char. *)
Theorem uniqueness_invariant (s : State) :
  reachable s ->
  Distinct (targetCache s)
  /\ forall c e words input labels,
       let out := fst (getTarget c e words input labels s) in
       Distinct out
       /\ forall ch,
            (length (filter (fun t => JS.eqb (Target.char t) ch) out) <= 1)%nat.
Proof.
  intros R. split.
  - induction R as [s E | c e words input labels s R IH | s s' R IH E].
    + rewrite E. split; constructor.
    + destruct (getTarget_out c e words input labels s)
        as [(_ & _ & ->) | (_ & _ & ->)]; [assumption|].
      apply getTarget_Distinct. apply reachable_chars; assumption.
    + rewrite E. assumption.
  - intros c e words input labels out.
    assert (D : Distinct out).
    { apply getTarget_Distinct. apply reachable_chars; assumption. }
    split; [exact D|]. intros ch. apply filter_char_le1. exact (proj1 D).
Qed.

Lemma uniqueness_invariant_witness :
  reachable initial
  /\ Distinct (fst (getTarget Ex.cfg1 Ex.env1 (getWords Ex.env1) (JS.lit "f")
                      (Some (fuzzy_motion_labels Ex.cfg1)) initial)).
Proof.
  assert (R : reachable initial) by (apply reach_empty; reflexivity).
  split; [exact R|].
  apply (proj2 (uniqueness_invariant initial R)).
Defined.

(** ** Aggregation *)

Lemma includes_ext (a b : list JS.str) (x : option JS.str) :
  (forall s, In s a <-> In s b) -> includes a x = includes b x.
Proof.
  intros H. destruct x as [s|]; [|reflexivity].
  apply eq_true_iff_eq. rewrite !includes_In. apply H.
Qed.

(** C3, amended. For a non-empty input getTarget concatenates fzf's
    output, when "fzf" is among the configured matchers, and then
    kensaku's, when "kensaku" is: a fixed order, the same for every
    ordering of the configured list.  It assigns labels to the result of
    scanning that concatenation in order, an entry being dropped exactly
    when its effective position (pos.line, pos.col + start) is that of an
    entry already kept, which is the case exactly when an earlier entry of
    the concatenation has it: the first occurrence wins, the survivors
    are an order-preserving selection of the concatenation with pairwise
    distinct effective positions, and scores play no part. *)
Theorem aggregation_dedup (c : Config) (e : Env) (words : list Word)
  (input : JS.str) (labels : option (list JS.str)) (s : State) :
  input <> [] ->
  let rs := concatenated c e input words in
  fst (getTarget c e words input labels s)
    = assignLabels (targetCache s) labels (dedup rs)
  /\ fst (aggregate c e input words s) = dedup rs
  /\ (forall c', (forall m, In m (fuzzy_motion_matchers c)
                            <-> In m (fuzzy_motion_matchers c')) ->
                 concatenated c' e input words = rs)
  /\ dedup [] = []
  /\ (forall l x, dedup (l ++ [x])
                  = if existsb (samePlace x) (dedup l)
                    then dedup l else dedup l ++ [x])
  /\ (forall l x, existsb (samePlace x) (dedup l) = existsb (samePlace x) l)
  /\ Subseq (dedup rs) rs
  /\ NoDup (map place (dedup rs))
  /\ (forall p, In p (map place rs) -> In p (map place (dedup rs))).
Proof.
  intros Hne rs. repeat split.
  - rewrite getTarget_nonempty by assumption. reflexivity.
  - apply aggregate_eq.
  - intros c' H. unfold rs, concatenated.
    rewrite (includes_ext _ _ (Some (JS.lit "fzf")) H).
    rewrite (includes_ext _ _ (Some (JS.lit "kensaku")) H). reflexivity.
  - apply dedup_snoc.
  - apply dedup_kept_earlier.
  - apply dedup_Subseq.
  - apply dedup_NoDup.
  - intros p. apply dedup_places.
Qed.

Lemma aggregation_dedup_witness :
  JS.lit "f" <> []
  /\ fst (aggregate Ex.cfg2 Ex.env2 (JS.lit "f") (getWords Ex.env2) initial)
     = dedup (concatenated Ex.cfg2 Ex.env2 (JS.lit "f") (getWords Ex.env2)).
Proof.
  assert (H : JS.lit "f" <> []) by discriminate.
  split; [exact H|].
  apply (aggregation_dedup Ex.cfg2 Ex.env2 (getWords Ex.env2) (JS.lit "f")
           None initial H).
Defined.

(** C3 as stated fails: with the matchers configured as
    [kensaku, fzf], fzf reporting a hit in "foo" (line 3) and kensaku one
    in "far" (line 4), the results getTarget labels are fzf's hit then
    kensaku's, not the configured order kensaku's then fzf's. *)
Lemma aggregation_order_counterexample :
  fuzzy_motion_matchers Ex.cfg2 = [JS.lit "kensaku"; JS.lit "fzf"]
  /\ fst (aggregate Ex.cfg2 Ex.env2 (JS.lit "f") (getWords Ex.env2) initial)
     = [Ex.hit Ex.foo 0 1 16; Ex.hit Ex.far 0 1 1]
  /\ dedup (concat_configured Ex.cfg2 Ex.env2 (JS.lit "f") (getWords Ex.env2))
     = [Ex.hit Ex.far 0 1 1; Ex.hit Ex.foo 0 1 16]
  /\ fst (aggregate Ex.cfg2 Ex.env2 (JS.lit "f") (getWords Ex.env2) initial)
     <> dedup (concat_configured Ex.cfg2 Ex.env2 (JS.lit "f") (getWords Ex.env2)).
Proof. repeat split. vm_compute. discriminate. Qed.

(** ** Alphabet exhaustion *)

(** C2, amended. With an empty Label Cache and an alphabet of N pairwise
    distinct labels, getTarget pairs the deduplicated results with the
    alphabet in order: when there are M > N results the output is exactly
    N Targets, the earliest N in aggregator order, the i-th labelled with
    the i-th letter, and the other M - N are dropped.  With any cache
    whose chars are pairwise distinct and drawn from the alphabet, as in
    every session, the output never has more than N Targets. *)
Theorem alphabet_exhaustion (c : Config) (e : Env) (words : list Word)
  (input : JS.str) (labels : list JS.str) (s : State) :
  NoDup (map Target.char (targetCache s)) ->
  incl (map Target.char (targetCache s)) labels ->
  let out := fst (getTarget c e words input (Some labels) s) in
  let rs := dedup (concatenated c e input words) in
  (length out <= length labels)%nat
  /\ (targetCache s = [] -> NoDup labels -> input <> [] ->
      out = zipLabels rs labels
      /\ ((length labels < length rs)%nat ->
          length out = length labels
          /\ out = zipLabels (firstn (length labels) rs) labels)).
Proof.
  intros Hnd Hin out rs. split.
  - rewrite <- (length_map Target.char out).
    apply NoDup_incl_length.
    + apply getTarget_Distinct; assumption.
    + apply getTarget_chars; assumption.
  - intros Hc Hl Hne.
    assert (E : out = zipLabels rs labels).
    { unfold out. rewrite getTarget_nonempty by assumption. simpl.
      rewrite Hc. apply assignLabels_fresh; assumption. }
    split; [exact E|]. intros Hlt. split.
    + rewrite E, zipLabels_length. lia.
    + rewrite E. apply zipLabels_firstn.
Qed.

Lemma alphabet_exhaustion_witness :
  let labels := fuzzy_motion_labels Ex.cfg1 in
  let out := fst (getTarget Ex.cfg1 Ex.env1 (getWords Ex.env1) (JS.lit "f")
                    (Some labels) initial) in
  (length out <= length labels)%nat
  /\ out = [mkTarget (Ex.hit Ex.of_fo 1 1 16) (JS.lit "a");
            mkTarget (Ex.hit Ex.if_fo 1 1 16) (JS.lit "s")].
Proof.
  intros labels out.
  assert (H1 : NoDup (map Target.char (targetCache initial))) by constructor.
  assert (H2 : incl (map Target.char (targetCache initial)) labels)
    by (intros x []).
  destruct (alphabet_exhaustion Ex.cfg1 Ex.env1 (getWords Ex.env1)
              (JS.lit "f") labels initial H1 H2) as [Hle Hz].
  split; [exact Hle|].
  assert (H3 : NoDup labels).
  { repeat constructor; simpl; intuition discriminate. }
  assert (H4 : JS.lit "f" <> []) by discriminate.
  destruct (Hz eq_refl H3 H4) as [E _].
  exact E.
Defined.

(** C2 as stated fails.  Alphabet [a, s], words "of_fo", "if_fo", "fo":
    after the input "f" the cache holds [a] and [s] for the hits at offset
    1 of the first two words; for "fo" the three deduplicated hits are all
    new identities, both letters are reserved by the cache, and the output
    is empty instead of two Targets.  And with the alphabet [a, a] a fresh
    cache labels one Target, not two. *)
Lemma alphabet_exhaustion_counterexample :
  let labels := fuzzy_motion_labels Ex.cfg1 in
  let words := getWords Ex.env1 in
  let s1 := snd (getTarget Ex.cfg1 Ex.env1 words (JS.lit "f") (Some labels) initial) in
  let rs := dedup (concatenated Ex.cfg1 Ex.env1 (JS.lit "fo") words) in
  length labels = 2%nat
  /\ length rs = 3%nat
  /\ map Target.char (targetCache s1) = [JS.lit "a"; JS.lit "s"]
  /\ fst (getTarget Ex.cfg1 Ex.env1 words (JS.lit "fo") (Some labels) s1) = []
  /\ length (fuzzy_motion_labels Ex.cfg1_dup) = 2%nat
  /\ length (dedup (concatenated Ex.cfg1_dup Ex.env1 (JS.lit "f") words)) = 3%nat
  /\ length (fst (getTarget Ex.cfg1_dup Ex.env1 words (JS.lit "f")
                    (Some (fuzzy_motion_labels Ex.cfg1_dup)) initial)) = 1%nat.
Proof. repeat split. Qed.


(** ** Frame lemmas for the state monad *)

Lemma bind_eq {A B} (m : M A) (k : A -> M B) (s : State) :
  bind m k s = k (fst (m s)) (snd (m s)).
Proof. unfold bind. destruct (m s). reflexivity. Qed.

Lemma preserves_ret {X A} (f : State -> X) (a : A) : preserves f (ret a).
Proof. intros s. reflexivity. Qed.

Lemma preserves_get {X A} (f : State -> X) (g : State -> A) :
  preserves f (get g).
Proof. intros s. reflexivity. Qed.

Lemma preserves_bind {X A B} (f : State -> X) (m : M A) (k : A -> M B) :
  preserves f m -> (forall a, preserves f (k a)) -> preserves f (bind m k).
Proof.
  intros Hm Hk s. unfold bind. specialize (Hm s).
  destruct (m s) as [a s']. simpl in Hm. rewrite Hk. exact Hm.
Qed.

Lemma preserves_forEach {X A} (f : State -> X) (xs : list A)
  (body : A -> M unit) :
  (forall x, preserves f (body x)) -> preserves f (forEach xs body).
Proof.
  intros H. induction xs as [|x xs IH]; simpl.
  - apply preserves_ret.
  - apply preserves_bind; auto.
Qed.

Lemma maintains_ret {A} (P : State -> Prop) (a : A) : maintains P (ret a).
Proof. intros s H. exact H. Qed.

Lemma maintains_bind {A B} (P : State -> Prop) (m : M A) (k : A -> M B) :
  maintains P m -> (forall a, maintains P (k a)) -> maintains P (bind m k).
Proof.
  intros Hm Hk s H. unfold bind. specialize (Hm s H).
  destruct (m s) as [a s']. simpl in Hm. apply Hk. exact Hm.
Qed.

Lemma preserves_maintains {X A} (f : State -> X) (Q : X -> Prop) (m : M A) :
  preserves f m -> maintains (fun s => Q (f s)) m.
Proof. intros H s HQ. rewrite H. exact HQ. Qed.

(** Splits an action along its binds, branches and loops. *)
Ltac frame :=
  repeat first
    [ apply preserves_ret
    | apply preserves_get
    | apply preserves_bind; [|intros ?]
    | apply preserves_forEach; intros ?
    | assumption
    | match goal with
      | |- preserves _ (match ?x with _ => _ end) => destruct x
      end ];
  try (intros ?; reflexivity).

(** *** What touches the label cache *)

Lemma cache_unmountTargets (c : Config) : preserves targetCache (unmountTargets c).
Proof. unfold unmountTargets. frame. Qed.

Lemma cache_mountTarget (c : Config) (e : Env) (i : nat) (t : Target.t) :
  preserves targetCache (mountTarget c e i t).
Proof. unfold mountTarget. frame. Qed.

Lemma cache_mountTargets (c : Config) (e : Env) (ts : list Target.t) :
  preserves targetCache (mountTargets c e ts).
Proof.
  unfold mountTargets. generalize 0%nat.
  induction ts as [|t ts IH]; intros i; simpl.
  - apply preserves_ret.
  - apply preserves_bind; [apply cache_mountTarget | intros _; apply IH].
Qed.

Lemma cache_jumpTarget (t : Target.t) : preserves targetCache (jumpTarget t).
Proof. unfold jumpTarget. frame. Qed.

Lemma trace_jumpTarget (t : Target.t) (s : State) :
  trace (snd (jumpTarget t s))
  = trace s ++ [NormalMark;
                Cursor (line (Target.pos t))
                       (col (Target.pos t) + Target.start t)].
Proof. simpl. rewrite <- app_assoc. reflexivity. Qed.

(** ** The loop, one cycle at a time *)

Lemma loop_nil (c : Config) (e : Env) (words : list Word) (input : JS.str)
  (s : State) :
  loop c e words [] input s
  = (Waiting input (fst (render c e words input s)),
     snd (render c e words input s)).
Proof.
  simpl. unfold bind. destruct (render c e words input s). reflexivity.
Qed.

Lemma loop_cons (c : Config) (e : Env) (words : list Word) (v : value)
  (keys : list value) (input : JS.str) (s : State) :
  loop c e words (v :: keys) input s
  = let r := render c e words input s in
    let h := handle c e words input (fst r) v (snd r) in
    match fst h with
    | Continue input' => loop c e words keys input' (snd h)
    | Stop x => (Exited x, snd h)
    end.
Proof.
  simpl. unfold bind at 1. destruct (render c e words input s) as [ts s1].
  unfold bind at 1. simpl. destruct (handle c e words input ts v s1) as [st s2].
  simpl. destruct st; reflexivity.
Qed.

(** More keys take the loop up where it was waiting. *)
Lemma loop_app (c : Config) (e : Env) (words : list Word)
  (keys more : list value) (input : JS.str) (s : State) :
  loop c e words (keys ++ more) input s
  = resume c e words more (fst (loop c e words keys input s))
           (snd (loop c e words keys input s)).
Proof.
  revert input s. induction keys as [|v keys IH]; intros input s.
  - rewrite loop_nil. simpl app. destruct more as [|w more].
    + rewrite loop_nil. reflexivity.
    + rewrite loop_cons. simpl. unfold bind.
      destruct (handle c e words input _ w _) as [st s2]. simpl.
      destruct st; reflexivity.
  - simpl app. rewrite !loop_cons. simpl.
    destruct (fst (handle c e words input _ v _)).
    + apply IH.
    + destruct more; reflexivity.
Qed.

Lemma resume_waiting (c : Config) (e : Env) (words : list Word)
  (v : value) (more : list value) (input : JS.str) (ts : list Target.t)
  (s : State) :
  resume c e words (v :: more) (Waiting input ts) s
  = let h := handle c e words input ts v s in
    match fst h with
    | Continue input' => loop c e words more input' (snd h)
    | Stop x => (Exited x, snd h)
    end.
Proof.
  simpl. unfold bind. destruct (handle c e words input ts v s) as [st s2].
  simpl. destruct st; reflexivity.
Qed.

(** *** The chars of a session stay within its alphabet *)

Lemma within_getTarget (c : Config) (e : Env) (words : list Word)
  (input : JS.str) :
  maintains (charsWithin (fuzzy_motion_labels c))
            (getTarget c e words input (Some (fuzzy_motion_labels c))).
Proof. intros s H. apply getTarget_chars. exact H. Qed.

Lemma within_reset (labels : list JS.str) :
  maintains (charsWithin labels) (set_targetCache []).
Proof. intros s _ x []. Qed.

Lemma within_preserved {A} (labels : list JS.str) (m : M A) :
  preserves targetCache m -> maintains (charsWithin labels) m.
Proof.
  intros H. apply (preserves_maintains targetCache (fun v => incl (map Target.char v) labels)).
  exact H.
Qed.

Lemma render_parts (c : Config) (e : Env) (words : list Word)
  (input : JS.str) (s : State) :
  exists s0 s2,
    targetCache s0 = targetCache s
    /\ fst (render c e words input s)
       = fst (getTarget c e words input (Some (fuzzy_motion_labels c)) s0)
    /\ s2 = snd (getTarget c e words input (Some (fuzzy_motion_labels c)) s0)
    /\ targetCache (snd (render c e words input s)) = targetCache s2.
Proof.
  unfold render. rewrite !bind_eq.
  set (s' := snd (emit (Echo (JS.lit "fuzzy-motion: " ++ input)) s)).
  set (s0 := snd (unmountTargets c s')).
  exists s0, (snd (getTarget c e words input (Some (fuzzy_motion_labels c)) s0)).
  split; [|split; [|split]].
  - unfold s0. rewrite cache_unmountTargets. reflexivity.
  - reflexivity.
  - reflexivity.
  - simpl. apply cache_mountTargets.
Qed.

Lemma within_render (c : Config) (e : Env) (words : list Word)
  (input : JS.str) (s : State) :
  charsWithin (fuzzy_motion_labels c) s ->
  incl (map Target.char (fst (render c e words input s))) (fuzzy_motion_labels c)
  /\ charsWithin (fuzzy_motion_labels c) (snd (render c e words input s)).
Proof.
  intros H.
  destruct (render_parts c e words input s) as (s0 & s2 & H0 & Ht & E2 & Hc).
  assert (H' : charsWithin (fuzzy_motion_labels c) s0).
  { unfold charsWithin. rewrite H0. exact H. }
  destruct (getTarget_chars c e words input (fuzzy_motion_labels c) s0 H')
    as [G1 G2].
  split.
  - rewrite Ht. exact G1.
  - unfold charsWithin. rewrite Hc, E2. exact G2.
Qed.

Lemma within_dispatch (c : Config) (e : Env) (words : list Word)
  (input : JS.str) (ts : list Target.t) (code : JS.num) :
  maintains (charsWithin (fuzzy_motion_labels c))
            (dispatch c e words input ts code).
Proof.
  unfold dispatch.
  destruct (JS.num_eqb code (JS.Num ESC)); [apply maintains_ret|].
  destruct (find _ (fuzzy_motion_labels c)).
  - destruct (find _ ts).
    + apply maintains_bind; [|intros; apply maintains_ret].
      apply within_preserved, cache_jumpTarget.
    + apply maintains_ret.
  - destruct (_ || _).
    { apply maintains_bind; [apply within_reset | intros; apply maintains_ret]. }
    destruct (JS.num_eqb code (JS.Num C_W)).
    { apply maintains_bind; [apply within_reset | intros; apply maintains_ret]. }
    destruct (_ && _); [|apply maintains_ret].
    apply maintains_bind; [apply within_getTarget|].
    intros [|t [|t' ts']]; try apply maintains_ret.
    destruct (fuzzy_motion_auto_jump c); [|apply maintains_ret].
    apply maintains_bind; [|intros; apply maintains_ret].
    apply within_preserved, cache_jumpTarget.
Qed.

Lemma within_handle (c : Config) (e : Env) (words : list Word)
  (input : JS.str) (ts : list Target.t) (v : value) :
  maintains (charsWithin (fuzzy_motion_labels c)) (handle c e words input ts v).
Proof.
  unfold handle. destruct v as [z|]; [|apply maintains_ret].
  destruct (z =? ENTER); [|apply within_dispatch].
  destruct ts; [apply maintains_ret | apply within_dispatch].
Qed.

(** While the loop waits, the chars on display belong to the alphabet. *)
Lemma within_loop (c : Config) (e : Env) (words : list Word)
  (keys : list value) :
  forall (input : JS.str) (s : State) (input' : JS.str)
         (ts : list Target.t) (s1 : State),
    charsWithin (fuzzy_motion_labels c) s ->
    loop c e words keys input s = (Waiting input' ts, s1) ->
    incl (map Target.char ts) (fuzzy_motion_labels c).
Proof.
  induction keys as [|v keys IH]; intros input s input' ts s1 H E.
  - rewrite loop_nil in E. inversion E; subst.
    apply within_render. exact H.
  - rewrite loop_cons in E. simpl in E.
    destruct (within_render c e words input s H) as [_ H1].
    pose proof (within_handle c e words input
                  (fst (render c e words input s)) v _ H1) as H2.
    destruct (fst (handle c e words input _ v _)) as [i2|x]; [|discriminate].
    eapply IH; eassumption.
Qed.


(** ** The key dispatch *)

Lemma find_In_some {A} (f : A -> bool) (l : list A) (x : A) :
  In x l -> f x = true -> find f l <> None.
Proof.
  intros Hin Hf E. rewrite (find_none f l E x Hin) in Hf. discriminate.
Qed.

Lemma handle_number (c : Config) (e : Env) (words : list Word)
  (input : JS.str) (ts : list Target.t) (z : Z) :
  z <> ENTER ->
  handle c e words input ts (VNumber z) = dispatch c e words input ts (JS.Num z).
Proof.
  intros H. unfold handle. apply Z.eqb_neq in H. rewrite H. reflexivity.
Qed.

(** C5, amended. In state Active(input), for every printable code in
    32..126 that is not the first character of a label, the decoded
    character is appended to the input and getTarget is run at once on
    the new input; when that yields exactly one Target and auto-jump is
    on, jumpTarget is called on it (jump-back mark, then the cursor at
    (pos.line, pos.col + start)) and the loop exits with nothing rendered
    in between; otherwise the loop goes on to the next cycle with the new
    input. *)
Theorem auto_jump (c : Config) (e : Env) (words : list Word)
  (keys : list value) (input : JS.str) (s : State) (z : Z) :
  SPACE <= z <= TILDE ->
  find (fun label => JS.num_eqb (JS.charCodeAt0 label) (JS.Num z))
       (fuzzy_motion_labels c) = None ->
  loop c e words (VNumber z :: keys) input s
  = (let g := getTarget c e words (input ++ [z])
                        (Some (fuzzy_motion_labels c))
                        (snd (render c e words input s)) in
     match fst g with
     | [t] =>
         if fuzzy_motion_auto_jump c
         then (Exited Break, snd (jumpTarget t (snd g)))
         else loop c e words keys (input ++ [z]) (snd g)
     | _ => loop c e words keys (input ++ [z]) (snd g)
     end)
  /\ forall t s', trace (snd (jumpTarget t s'))
                  = trace s' ++ [NormalMark;
                                 Cursor (line (Target.pos t))
                                        (col (Target.pos t) + Target.start t)].
Proof.
  unfold SPACE, TILDE. intros Hz Hf. split; [|intros; apply trace_jumpTarget].
  rewrite loop_cons. cbv zeta.
  rewrite handle_number by (unfold ENTER; lia).
  unfold dispatch. rewrite Hf.
  replace (JS.num_eqb (JS.Num z) (JS.Num ESC)) with false
    by (symmetry; apply Z.eqb_neq; unfold ESC; lia).
  replace (JS.num_eqb (JS.Num z) (JS.Num BS)) with false
    by (symmetry; apply Z.eqb_neq; unfold BS; lia).
  replace (JS.num_eqb (JS.Num z) (JS.Num C_H)) with false
    by (symmetry; apply Z.eqb_neq; unfold C_H; lia).
  replace (JS.num_eqb (JS.Num z) (JS.Num C_W)) with false
    by (symmetry; apply Z.eqb_neq; unfold C_W; lia).
  replace (JS.num_leb (JS.Num SPACE) (JS.Num z)) with true
    by (symmetry; apply Z.leb_le; unfold SPACE; lia).
  replace (JS.num_leb (JS.Num z) (JS.Num TILDE)) with true
    by (symmetry; apply Z.leb_le; unfold TILDE; lia).
  cbn [orb andb].
  unfold JS.nr2char. rewrite bind_eq.
  destruct (fst (getTarget c e words (input ++ [z]) _ _)) as [|t [|t' ts]];
    try reflexivity.
  destruct (fuzzy_motion_auto_jump c); reflexivity.
Qed.

(** The example of the specification: alphabet [a, s, d], auto-jump on,
    input "f" typed, then "o": only "foo" (line 3, column 1) is left and
    the loop exits with the cursor sent to (3, 1). *)
Lemma auto_jump_witness :
  SPACE <= 111 <= TILDE
  /\ fst (loop Ex.auto Ex.env Ex.words [VNumber 111] (JS.lit "f") initial)
     = Exited Break
  /\ cursorMoves
       (trace (snd (loop Ex.auto Ex.env Ex.words [VNumber 111]
                         (JS.lit "f") initial)))
     = [(3, 1)].
Proof.
  assert (H1 : SPACE <= 111 <= TILDE) by (unfold SPACE, TILDE; lia).
  split; [exact H1|].
  rewrite (proj1 (auto_jump Ex.auto Ex.env Ex.words [] (JS.lit "f")
                    initial 111 H1 eq_refl)).
  split; reflexivity.
Defined.

(** C5 as stated fails on a label key.  Alphabet [a, s, d], auto-jump
    on: with the empty input the key "a" leaves the input empty and calls
    no matcher; after "f" (targets "foo" labelled a, "far" labelled s) the
    key "a" is not appended (the input "fa" is never matched, which would
    have left "far" alone) but jumps to "foo" at (3, 1). *)
Lemma auto_jump_counterexample :
  SPACE <= 97 <= TILDE
  /\ fst (loop Ex.auto Ex.env Ex.words [VNumber 97] [] initial)
     = Waiting [] []
  /\ invoked [97]
       (trace (snd (loop Ex.auto Ex.env Ex.words [VNumber 97] [] initial)))
     = false
  /\ invoked (JS.lit "fa")
       (trace (snd (loop Ex.auto Ex.env Ex.words
                         [VNumber 102; VNumber 97] [] initial)))
     = false
  /\ cursorMoves
       (trace (snd (loop Ex.auto Ex.env Ex.words
                         [VNumber 102; VNumber 97] [] initial)))
     = [(3, 1)].
Proof. unfold SPACE, TILDE. repeat split; try lia; vm_compute; reflexivity. Qed.

(** C6, amended. On code 13 with an empty Target list the loop returns
    with the state the render left (no cursor request).  Otherwise, when
    the label of the first Target is a single character other than Escape
    (code 27), jumpTarget is called on the first Target and the loop
    exits. *)
Theorem enter_key (c : Config) (e : Env) (words : list Word)
  (keys more : list value) (input : JS.str) (targets : list Target.t)
  (s0 : State) :
  targetCache s0 = [] ->
  fst (loop c e words keys [] s0) = Waiting input targets ->
  (forall t0, hd_error targets = Some t0 ->
              JS.single (Target.char t0) /\ Target.char t0 <> [ESC]) ->
  loop c e words (keys ++ VNumber ENTER :: more) [] s0
  = match targets with
    | [] => (Exited Return, snd (loop c e words keys [] s0))
    | t0 :: _ =>
        (Exited Break, snd (jumpTarget t0 (snd (loop c e words keys [] s0))))
    end.
Proof.
  intros Hc E Hl.
  assert (Hin : incl (map Target.char targets) (fuzzy_motion_labels c)).
  { apply (within_loop c e words keys [] s0 input targets
             (snd (loop c e words keys [] s0))).
    - unfold charsWithin. rewrite Hc. intros x [].
    - rewrite <- E. apply surjective_pairing. }
  rewrite loop_app, E. rewrite resume_waiting.
  unfold handle. simpl (ENTER =? ENTER).
  destruct targets as [|t0 rest]; [reflexivity|].
  destruct (Hl t0 eq_refl) as [(u & Eu & Hu) Hesc].
  unfold dispatch. rewrite Eu. change (JS.charCodeAt0 [u]) with (JS.Num u).
  replace (JS.num_eqb (JS.Num u) (JS.Num ESC)) with false
    by (symmetry; apply Z.eqb_neq; congruence).
  destruct (find (fun label => JS.num_eqb (JS.charCodeAt0 label) (JS.Num u))
                 (fuzzy_motion_labels c)) as [l|] eqn:Ef.
  - unfold JS.fromCharCode. rewrite Z.mod_small by lia.
    cbn [find]. rewrite Eu, JS_eqb_refl. rewrite bind_eq. reflexivity.
  - exfalso. revert Ef.
    apply (find_In_some _ _ [u]).
    + apply Hin. rewrite <- Eu. simpl. auto.
    + simpl. apply Z.eqb_refl.
Qed.

(** Alphabet [a, s, d]: after "f" the Targets are "foo" (a) and "far"
    (s); Enter jumps to "foo" at (3, 1) and ends the loop. *)
Lemma enter_key_witness :
  fst (loop (Ex.manual Ex.asd) Ex.env Ex.words
            ([VNumber 102] ++ [VNumber ENTER]) [] initial)
  = Exited Break
  /\ cursorMoves
       (trace (snd (loop (Ex.manual Ex.asd) Ex.env Ex.words
                         ([VNumber 102] ++ [VNumber ENTER]) [] initial)))
     = [(3, 1)].
Proof.
  assert (E : fst (loop (Ex.manual Ex.asd) Ex.env Ex.words [VNumber 102]
                        [] initial)
              = Waiting [102] [mkTarget (Ex.hit Ex.foo 0 1 16) [97];
                               mkTarget (Ex.hit Ex.far 0 1 16) [115]])
    by (vm_compute; reflexivity).
  assert (H : forall t0,
             hd_error [mkTarget (Ex.hit Ex.foo 0 1 16) [97];
                       mkTarget (Ex.hit Ex.far 0 1 16) [115]] = Some t0 ->
             JS.single (Target.char t0) /\ Target.char t0 <> [ESC]).
  { intros t0 E0. inversion E0; subst. split.
    - exists 97. split; [reflexivity | lia].
    - discriminate. }
  pose proof (enter_key (Ex.manual Ex.asd) Ex.env Ex.words [VNumber 102] []
                [102] _ initial eq_refl E H) as W.
  split; rewrite W; vm_compute; reflexivity.
Defined.

(** C6 as stated fails when the first label is Escape or is longer than
    one character.  With the alphabet [Escape], after "f" the Target
    "foo" carries Escape; Enter then leaves the loop with no cursor
    request.  With the alphabet ["ab"], Enter neither jumps nor leaves
    the loop. *)
Lemma enter_key_counterexample :
  fst (loop (Ex.manual [[ESC]]) Ex.env Ex.words
            [VNumber 102; VNumber ENTER] [] initial) = Exited Break
  /\ cursorMoves
       (trace (snd (loop (Ex.manual [[ESC]]) Ex.env Ex.words
                         [VNumber 102; VNumber ENTER] [] initial))) = []
  /\ fst (loop (Ex.manual [[ESC]]) Ex.env Ex.words [VNumber 102] [] initial)
     = Waiting [102] [mkTarget (Ex.hit Ex.foo 0 1 16) [ESC]]
  /\ fst (loop (Ex.manual [JS.lit "ab"]) Ex.env Ex.words
              [VNumber 102; VNumber ENTER] [] initial)
     = Waiting [102] [mkTarget (Ex.hit Ex.foo 0 1 16) (JS.lit "ab")]
  /\ cursorMoves
       (trace (snd (loop (Ex.manual [JS.lit "ab"]) Ex.env Ex.words
                         [VNumber 102; VNumber ENTER] [] initial))) = [].
Proof. repeat split; vm_compute; reflexivity. Qed.

(** C7, amended. On code 8 or 128 that is not the first character of a
    label, the next cycle runs with the Label Cache emptied and the input
    without its last character (the empty input stays empty); on code 23
    that is not the first character of a label, with the cache emptied
    and the empty input.  In both cases the loop goes on, nothing is
    requested from the editor (no jump), and the word list is the same. *)
Theorem backspace_clear_reset (c : Config) (e : Env) (words : list Word)
  (keys : list value) (input : JS.str) (s : State) (z : Z) :
  z = C_H \/ z = BS \/ z = C_W ->
  find (fun label => JS.num_eqb (JS.charCodeAt0 label) (JS.Num z))
       (fuzzy_motion_labels c) = None ->
  let s1 := snd (render c e words input s) in
  loop c e words (VNumber z :: keys) input s
  = loop c e words keys
         (if z =? C_W then [] else JS.slice_0_m1 input)
         (with_cache [] s1)
  /\ targetCache (with_cache [] s1) = []
  /\ trace (with_cache [] s1) = trace s1
  /\ JS.slice_0_m1 [] = []
  /\ forall l u, JS.slice_0_m1 (l ++ [u]) = l.
Proof.
  intros Hz Hf s1. repeat split; [|apply removelast_last].
  rewrite loop_cons. cbv zeta. fold s1.
  rewrite handle_number
    by (unfold ENTER, C_H, BS, C_W in *; lia).
  unfold dispatch. rewrite Hf.
  replace (JS.num_eqb (JS.Num z) (JS.Num ESC)) with false
    by (symmetry; apply Z.eqb_neq; unfold ESC, C_H, BS, C_W in *; lia).
  destruct Hz as [-> | [-> | ->]]; reflexivity.
Qed.

Lemma backspace_clear_reset_witness :
  fst (loop (Ex.manual Ex.asd) Ex.env Ex.words [VNumber C_H]
            (JS.lit "f") initial)
  = Waiting [] [].
Proof.
  rewrite (proj1 (backspace_clear_reset (Ex.manual Ex.asd) Ex.env Ex.words
                    [] (JS.lit "f") initial C_H (or_introl eq_refl) eq_refl)).
  reflexivity.
Defined.

(** C7 as stated fails when a label starts with the code.  With the
    alphabet [Backspace (8)], after "f" the Target "foo" carries that
    label, and code 8 jumps to it at (3, 1) and ends the loop: no reset,
    no shorter input. *)
Lemma backspace_clear_reset_counterexample :
  fst (loop (Ex.manual [[C_H]]) Ex.env Ex.words
            [VNumber 102; VNumber C_H] [] initial) = Exited Break
  /\ cursorMoves
       (trace (snd (loop (Ex.manual [[C_H]]) Ex.env Ex.words
                         [VNumber 102; VNumber C_H] [] initial))) = [(3, 1)]
  /\ targetCache (snd (loop (Ex.manual [[C_H]]) Ex.env Ex.words
                            [VNumber 102; VNumber C_H] [] initial)) <> [].
Proof. repeat split; vm_compute; try reflexivity. discriminate. Qed.

(** C8, amended. In state Active(input), when the code is neither Enter
    (13) nor Escape (27), is the first character of some label, and no
    Target on display carries that character, the event does nothing: the
    next cycle starts from the state the render left, with the same
    input. *)
Theorem unresolvable_label_key (c : Config) (e : Env) (words : list Word)
  (keys : list value) (input : JS.str) (s : State) (z : Z) :
  z <> ENTER -> z <> ESC ->
  (exists label, In label (fuzzy_motion_labels c)
                 /\ JS.charCodeAt0 label = JS.Num z) ->
  (forall t, In t (fst (render c e words input s)) ->
             Target.char t <> JS.fromCharCode (JS.Num z)) ->
  loop c e words (VNumber z :: keys) input s
  = loop c e words keys input (snd (render c e words input s)).
Proof.
  intros H13 H27 (label & Hin & Hcode) Hno.
  rewrite loop_cons. cbv zeta. rewrite handle_number by assumption.
  unfold dispatch.
  replace (JS.num_eqb (JS.Num z) (JS.Num ESC)) with false
    by (symmetry; apply Z.eqb_neq; assumption).
  destruct (find (fun l => JS.num_eqb (JS.charCodeAt0 l) (JS.Num z))
                 (fuzzy_motion_labels c)) as [l|] eqn:Ef.
  - destruct (find (fun t => JS.eqb (Target.char t) (JS.fromCharCode (JS.Num z)))
                   (fst (render c e words input s))) as [t|] eqn:Et.
    + exfalso. apply find_some in Et. destruct Et as [Ht Hc].
      apply JS_eqb_eq in Hc. exact (Hno t Ht Hc).
    + reflexivity.
  - exfalso. revert Ef. apply (find_In_some _ _ label Hin).
    rewrite Hcode. simpl. apply Z.eqb_refl.
Qed.

Lemma unresolvable_label_key_witness :
  fst (loop (Ex.manual Ex.asd) Ex.env Ex.words [VNumber 100]
            (JS.lit "f") initial)
  = fst (loop (Ex.manual Ex.asd) Ex.env Ex.words [] (JS.lit "f")
              (snd (render (Ex.manual Ex.asd) Ex.env Ex.words
                           (JS.lit "f") initial))).
Proof.
  rewrite (unresolvable_label_key (Ex.manual Ex.asd) Ex.env Ex.words []
             (JS.lit "f") initial 100).
  - reflexivity.
  - discriminate.
  - discriminate.
  - exists (JS.lit "d"). split; [simpl; auto | reflexivity].
  - intros t Ht. vm_compute in Ht.
    destruct Ht as [<-|[<-|[]]]; discriminate.
Defined.

(** C8 as stated fails when a label starts with Escape or Enter.  With
    the alphabet [Escape, a] and no Target on display, code 27 leaves the
    loop; with the alphabet [Enter, a], code 13 does. *)
Lemma unresolvable_label_key_counterexample :
  fst (render (Ex.manual [[ESC]; [97]]) Ex.env Ex.words [] initial) = []
  /\ fst (loop (Ex.manual [[ESC]; [97]]) Ex.env Ex.words [VNumber ESC]
              [] initial) = Exited Break
  /\ fst (render (Ex.manual [[ENTER]; [97]]) Ex.env Ex.words [] initial) = []
  /\ fst (loop (Ex.manual [[ENTER]; [97]]) Ex.env Ex.words [VNumber ENTER]
              [] initial) = Exited Return.
Proof. repeat split; vm_compute; reflexivity. Qed.


(** ** Accounting of the mounted objects *)

Lemma live_app (k : Kind) (id : Z) (a b : list Call) :
  live k id (a ++ b) = live k id a + live k id b.
Proof. induction a as [|r a IH]; simpl; lia. Qed.

Lemma occ_app (id : Z) (a b : list Z) : occ id (a ++ b) = occ id a + occ id b.
Proof. induction a as [|i a IH]; simpl; lia. Qed.

Lemma live_map (f : Z -> Call) (k : Kind) (id d : Z) (ids : list Z) :
  (forall i, delta k id (f i) = if i =? id then d else 0) ->
  live k id (map f ids) = d * occ id ids.
Proof.
  intros H. induction ids as [|i ids IH]; simpl; [lia|].
  rewrite H, IH. destruct (i =? id); lia.
Qed.

Lemma forEach_emit (f : Z -> Call) (ids : list Z) (s : State) :
  forEach ids (fun id => emit (f id)) s = (tt, logged (map f ids) s).
Proof.
  revert s. induction ids as [|i ids IH]; intros s; simpl.
  - unfold ret, logged. rewrite app_nil_r. destruct s; reflexivity.
  - rewrite bind_eq. rewrite IH. unfold logged. simpl.
    rewrite <- app_assoc. reflexivity.
Qed.

(** The state [unmountTargets] leaves, host by host. *)
Lemma unmountTargets_eq (c : Config) (s : State) :
  snd (unmountTargets c s)
  = match host c with
    | Nvim =>
        mkState (targetCache s) [] (popupIds s) [] (textPropId s) (replies s)
                (trace s ++ map ExtmarkDel (markIds s)
                         ++ map MatchDelete (targetMatchIds s))
    | Vim =>
        mkState (targetCache s) [] [] [] (textPropId s) (replies s)
                (trace s ++ map PropRemove (markIds s)
                         ++ map PopupClose (popupIds s)
                         ++ map MatchDelete (targetMatchIds s))
    end.
Proof.
  unfold unmountTargets, bind, get, set_markIds, set_popupIds,
    set_targetMatchIds.
  destruct (host c).
  - rewrite forEach_emit. rewrite forEach_emit. simpl. rewrite <- app_assoc. reflexivity.
  - rewrite forEach_emit. rewrite forEach_emit. simpl.
    rewrite forEach_emit. simpl. rewrite <- !app_assoc. reflexivity.
Qed.

Ltac count_ids :=
  repeat rewrite live_app;
  repeat match goal with
    | |- context [live ?k ?id (map ?f ?ids)] =>
        first
          [ rewrite (live_map f k id (-1) ids) by (intros; reflexivity)
          | rewrite (live_map f k id 0 ids)
              by (intros i; simpl; destruct (i =? id); reflexivity) ]
    end.

Lemma unowned_unmountTargets (c : Config) (k : Kind) (id : Z) :
  preserves (unowned c k id) (unmountTargets c).
Proof.
  intros s. rewrite unmountTargets_eq. unfold unowned, owed.
  destruct (host c), k; simpl; count_ids; lia.
Qed.



Lemma unowned_mountTarget (c : Config) (e : Env) (k : Kind) (id : Z)
  (i : nat) (t : Target.t) :
  preserves (unowned c k id) (mountTarget c e i t).
Proof.
  intros s. unfold mountTarget, unowned, owed.
  destruct (host c), (fuzzy_motion_disable_match_highlight c), k; simpl;
    repeat rewrite live_app; repeat rewrite occ_app; simpl; lia.
Qed.

Lemma unowned_mountTargets (c : Config) (e : Env) (k : Kind) (id : Z)
  (ts : list Target.t) :
  preserves (unowned c k id) (mountTargets c e ts).
Proof.
  unfold mountTargets. generalize 0%nat.
  induction ts as [|t ts IH]; intros i; simpl.
  - apply preserves_ret.
  - apply preserves_bind; [apply unowned_mountTarget | intros _; apply IH].
Qed.











(** ** Leaving the loop *)

Lemma execute_eq (c : Config) (e : Env) (keys : list value) (s0 : State) :
  let sh := shade e (lineNumbers e) (with_cache [] s0) in
  let lp := loop c e (getWords e) keys [] (snd sh) in
  execute c e keys s0 = settle c (fst sh) (fst lp) (snd lp).
Proof.
  unfold execute. rewrite !bind_eq. reflexivity.
Qed.

Lemma settle_exited (c : Config) (matchIds : list Z) (x : Exit) (s : State) :
  settle c matchIds (Exited x) s
  = (Exited x,
     snd (cleanup c matchIds
            (match x with
             | Throw => logged [ConsoleError] s
             | _ => s
             end))).
Proof.
  unfold settle. rewrite !bind_eq. destruct x; reflexivity.
Qed.

Lemma settle_outcome (c : Config) (matchIds : list Z) (o : Outcome) (s : State) :
  fst (settle c matchIds o s) = o.
Proof.
  destruct o as [i ts|x]; [reflexivity|]. rewrite settle_exited. reflexivity.
Qed.




(** * Further properties of the code *)

(** ** The aggregator and the label assigner *)

(** X1. Deduplicating twice is deduplicating once. *)
Theorem dedup_idempotent (rs : list Result) : dedup (dedup rs) = dedup rs.
Proof. apply dedup_fixed. apply dedup_NoDup. Qed.

(** X2. Every Target getTarget returns is built from one of the matches
    of this call: its text, start, end, pos and score are those of an
    entry of the concatenated matcher outputs, never those the cache
    held; and the Targets come in the order of the deduplicated
    matches. *)
Theorem output_from_current_matches (c : Config) (e : Env)
  (words : list Word) (input : JS.str) (labels : option (list JS.str))
  (s : State) :
  let out := fst (getTarget c e words input labels s) in
  (forall t, In t out ->
     exists r, In r (concatenated c e input words)
       /\ Target.text t = text (item r)
       /\ Target.start t = start r
       /\ Target.end_ t = end_ r
       /\ Target.pos t = pos (item r)
       /\ Target.score t = score r)
  /\ (input <> [] ->
      Subseq (map tplace out)
             (map place (dedup (concatenated c e input words)))).
Proof.
  intros out.
  destruct (getTarget_out c e words input labels s)
    as [(E0 & E1 & _) | (Hne & E1 & _)]; unfold out; rewrite E1.
  - split; [intros t [] | intros H; contradiction].
  - destruct (assignLabels_struct (targetCache s) labels
                (dedup (concatenated c e input words))) as [S H].
    split; [|intros _; exact S].
    intros t Ht. destruct (H t Ht) as (r & Hr & Et & _).
    exists r. split.
    + eapply Subseq_In; [apply dedup_Subseq | exact Hr].
    + rewrite Et. simpl. repeat split.
Qed.

Lemma fold_labelStep_grows (cache : list Target.t)
  (labels : option (list JS.str)) (rs : list Result) (st : Labeling)
  (t : Target.t) :
  In t (labeledTargets st) ->
  In t (labeledTargets (fold_left (labelStep cache labels) rs st)).
Proof.
  intros H. destruct (fold_labelStep_struct cache labels rs st) as (X & -> & _).
  apply in_app_iff. left. exact H.
Qed.

Lemma fold_carried_in (cache : list Target.t) (labels : option (list JS.str))
  (rs : list Result) :
  forall (st : Labeling) (r : Result) (ct : Target.t),
    In r rs -> find (sameIdentity r) cache = Some ct ->
    In (mkTarget r (Target.char ct))
       (labeledTargets (fold_left (labelStep cache labels) rs st)).
Proof.
  induction rs as [|r0 rs IH]; intros st r ct Hin Ef; [destruct Hin|].
  simpl. destruct Hin as [->|Hin]; [|apply IH; assumption].
  apply fold_labelStep_grows. unfold labelStep. rewrite Ef. simpl.
  apply in_app_iff. right. simpl. auto.
Qed.

(** X3. A match whose identity triple is in the cache is always output,
    with the char the cache holds for it: an exhausted or missing
    alphabet never drops a Target that is already labelled. *)
Theorem cached_match_survives (c : Config) (e : Env) (words : list Word)
  (input : JS.str) (labels : option (list JS.str)) (s : State)
  (r : Result) (ct : Target.t) :
  input <> [] ->
  In r (dedup (concatenated c e input words)) ->
  find (sameIdentity r) (targetCache s) = Some ct ->
  In (mkTarget r (Target.char ct)) (fst (getTarget c e words input labels s)).
Proof.
  intros Hne Hr Ef. rewrite getTarget_nonempty by assumption. simpl.
  unfold assignLabels. apply fold_carried_in; assumption.
Qed.

Lemma cached_match_survives_witness :
  In (mkTarget (Ex.hit Ex.foo 0 2 40) [97])
     (fst (getTarget (Ex.manual []) Ex.env Ex.words (JS.lit "fo") None
             (with_cache [mkTarget (Ex.hit Ex.foo 0 1 16) [97]] initial))).
Proof.
  apply (cached_match_survives (Ex.manual []) Ex.env Ex.words (JS.lit "fo")
           None
           (with_cache [mkTarget (Ex.hit Ex.foo 0 1 16) [97]] initial)
           (Ex.hit Ex.foo 0 2 40) (mkTarget (Ex.hit Ex.foo 0 1 16) [97])).
  - discriminate.
  - vm_compute. left. reflexivity.
  - vm_compute. reflexivity.
Defined.

Lemma fold_reserved (cache : list Target.t) (labels : option (list JS.str))
  (rs : list Result) :
  forall st : Labeling,
    (forall ls, labels = Some ls -> incl ls (cachedLabels st)) ->
    labeledTargets (fold_left (labelStep cache labels) rs st)
    = labeledTargets st ++ carried cache rs.
Proof.
  induction rs as [|r rs IH]; intros st H; simpl.
  - rewrite app_nil_r. reflexivity.
  - destruct (labelStep_cases cache labels st r)
      as [(ct & Ef & El & Ec) | [(Ef & El & Ec) | (ls & l & Ef & Els & Hl & Hfree & _)]].
    + rewrite IH by (rewrite Ec; exact H).
      rewrite El, Ef, <- app_assoc. reflexivity.
    + rewrite IH by (rewrite Ec; exact H).
      rewrite El, Ef. reflexivity.
    + exfalso. apply Hfree. apply (H ls Els). exact Hl.
Qed.

(** X4. When no alphabet is passed, or every label of the alphabet is a
    char of the cache, getTarget returns exactly the matches the cache
    knows, each with its cached char: no other match gets a label, though
    the Targets that held those chars may be gone. *)
Theorem reserved_alphabet_only_carries (c : Config) (e : Env)
  (words : list Word) (input : JS.str) (labels : option (list JS.str))
  (s : State) :
  input <> [] ->
  (forall ls, labels = Some ls ->
              incl ls (map Target.char (targetCache s))) ->
  fst (getTarget c e words input labels s)
  = carried (targetCache s) (dedup (concatenated c e input words)).
Proof.
  intros Hne H. rewrite getTarget_nonempty by assumption. simpl.
  unfold assignLabels. rewrite fold_reserved by exact H. reflexivity.
Qed.

(** After "f" the cache holds a and s for hits in "of_fo" and "if_fo";
    for "fo" no hit has a cached identity and nothing is output. *)
Lemma reserved_alphabet_only_carries_witness :
  fst (getTarget Ex.cfg1 Ex.env1 (getWords Ex.env1) (JS.lit "fo")
         (Some (fuzzy_motion_labels Ex.cfg1))
         (snd (getTarget Ex.cfg1 Ex.env1 (getWords Ex.env1) (JS.lit "f")
                 (Some (fuzzy_motion_labels Ex.cfg1)) initial)))
  = [].
Proof.
  rewrite (reserved_alphabet_only_carries Ex.cfg1 Ex.env1 (getWords Ex.env1)
             (JS.lit "fo") (Some (fuzzy_motion_labels Ex.cfg1))).
  - vm_compute. reflexivity.
  - discriminate.
  - intros ls E. inversion E; subst. vm_compute.
    intros x [<-|[<-|[]]]; auto.
Defined.

Lemma fold_fresh_chars (cache : list Target.t) (labels : option (list JS.str))
  (rs : list Result) :
  forall (st : Labeling) (t : Target.t),
    incl (map Target.char cache) (cachedLabels st) ->
    In t (labeledTargets (fold_left (labelStep cache labels) rs st)) ->
    In t (labeledTargets st)
    \/ exists r, In r rs /\ tident t = ident r
         /\ (find (sameIdentity r) cache = None ->
             ~ In (Target.char t) (map Target.char cache)
             /\ exists ls, labels = Some ls /\ In (Target.char t) ls).
Proof.
  induction rs as [|r rs IH]; intros st t Hc Ht; simpl in Ht; [auto|].
  assert (Hc' : incl (map Target.char cache)
                     (cachedLabels (labelStep cache labels st r))).
  { destruct (labelStep_cases cache labels st r)
      as [(ct & _ & _ & ->) | [(_ & _ & ->) | (ls & l & _ & _ & _ & _ & _ & ->)]];
      auto.
    intros x Hx. apply in_app_iff. left. auto. }
  destruct (IH _ t Hc' Ht) as [H | (r' & Hr' & H)].
  - destruct (labelStep_cases cache labels st r)
      as [(ct & Ef & El & _) | [(Ef & El & _) | (ls & l & Ef & Els & Hl & Hfree & El & _)]];
      rewrite El in H.
    + apply in_app_iff in H. destruct H as [H|[<-|[]]]; [auto|].
      right. exists r. split; [simpl; auto|]. split; [reflexivity|].
      intros E. congruence.
    + auto.
    + apply in_app_iff in H. destruct H as [H|[<-|[]]]; [auto|].
      right. exists r. split; [simpl; auto|]. split; [reflexivity|].
      intros _. simpl. split; [|exists ls; auto].
      intros Hin. apply Hfree. apply Hc. exact Hin.
  - right. exists r'. split; [simpl; auto | exact H].
Qed.

(** X5. A Target whose identity triple the cache does not hold gets a
    label of the alphabet that no entry of the cache carries: a char is
    not handed to a new Target in the pass in which its former holder
    disappears. *)
Theorem new_target_gets_unused_label (c : Config) (e : Env)
  (words : list Word) (input : JS.str) (labels : option (list JS.str))
  (s : State) (t : Target.t) :
  In t (fst (getTarget c e words input labels s)) ->
  (forall ct, In ct (targetCache s) -> tident ct <> tident t) ->
  ~ In (Target.char t) (map Target.char (targetCache s))
  /\ exists ls, labels = Some ls /\ In (Target.char t) ls.
Proof.
  intros Ht Hnew.
  destruct (getTarget_out c e words input labels s)
    as [(_ & E1 & _) | (_ & E1 & _)]; rewrite E1 in Ht; [destruct Ht|].
  unfold assignLabels in Ht.
  apply fold_fresh_chars in Ht; [|apply incl_refl].
  destruct Ht as [[] | (r & _ & Hid & H)].
  apply H.
  destruct (find (sameIdentity r) (targetCache s)) as [ct|] eqn:Ef;
    [|reflexivity].
  exfalso. apply find_some in Ef. destruct Ef as [Hin Hs].
  apply sameIdentity_ident in Hs. apply (Hnew ct Hin). congruence.
Qed.

(** With the cache holding a for "foo", the new Target "far" gets s. *)
Lemma new_target_gets_unused_label_witness :
  ~ In (JS.lit "s") (map Target.char [mkTarget (Ex.hit Ex.foo 0 1 16) [97]])
  /\ exists ls, Some Ex.asd = Some ls /\ In (JS.lit "s") ls.
Proof.
  apply (new_target_gets_unused_label (Ex.manual Ex.asd) Ex.env Ex.words
           (JS.lit "f") (Some Ex.asd)
           (with_cache [mkTarget (Ex.hit Ex.foo 0 1 16) [97]] initial)
           (mkTarget (Ex.hit Ex.far 0 1 16) (JS.lit "s"))).
  - vm_compute. right. left. reflexivity.
  - intros ct [<-|[]]. discriminate.
Defined.

(** X6. Two different Targets of one getTarget output never send the
    cursor to the same place: if jumpTarget issues the same requests for
    both, they are the same Target. *)
Theorem distinct_jump_destinations (c : Config) (e : Env)
  (words : list Word) (input : JS.str) (labels : option (list JS.str))
  (s s' : State) (t1 t2 : Target.t) :
  In t1 (fst (getTarget c e words input labels s)) ->
  In t2 (fst (getTarget c e words input labels s)) ->
  trace (snd (jumpTarget t1 s')) = trace (snd (jumpTarget t2 s')) ->
  t1 = t2.
Proof.
  intros H1 H2 E. rewrite !trace_jumpTarget in E.
  apply app_inv_head in E. inversion E as [[El Ec]].
  apply (NoDup_map_inj tplace _ t1 t2
           (getTarget_places c e words input labels s) H1 H2).
  unfold tplace. congruence.
Qed.

Lemma distinct_jump_destinations_witness :
  mkTarget (Ex.hit Ex.foo 0 1 16) [97] = mkTarget (Ex.hit Ex.foo 0 1 16) [97].
Proof.
  apply (distinct_jump_destinations (Ex.manual Ex.asd) Ex.env Ex.words
           (JS.lit "f") (Some Ex.asd) initial initial).
  - vm_compute. left. reflexivity.
  - vm_compute. left. reflexivity.
  - reflexivity.
Defined.

(** X7. The [targets] and [execute] entries start from an empty cache
    whatever the cache held: their results do not depend on it; and for
    a non-empty input and pairwise distinct labels [targets] returns the
    deduplicated matches paired with the alphabet in order, which it
    leaves as the cache. *)
Theorem targets_entry_fresh (c : Config) (e : Env) (input : JS.str)
  (s : State) :
  input <> [] ->
  NoDup (fuzzy_motion_labels c) ->
  (forall v, targets c e input (with_cache v s) = targets c e input s)
  /\ (forall v keys,
        execute c e keys (with_cache v s) = execute c e keys s)
  /\ fst (targets c e input s)
     = zipLabels (dedup (concatenated c e input (getWords e)))
                 (fuzzy_motion_labels c)
  /\ targetCache (snd (targets c e input s)) = fst (targets c e input s).
Proof.
  intros Hne Hl.
  assert (E : targets c e input s
              = getTarget c e (getWords e) input
                          (Some (fuzzy_motion_labels c)) (with_cache [] s))
    by reflexivity.
  split; [intros v; reflexivity|].
  split; [intros v keys; reflexivity|].
  rewrite E, getTarget_nonempty by assumption. simpl.
  split; [apply assignLabels_fresh; assumption | reflexivity].
Qed.

Lemma targets_entry_fresh_witness :
  fst (targets (Ex.manual Ex.asd) Ex.env (JS.lit "f") initial)
  = [mkTarget (Ex.hit Ex.foo 0 1 16) (JS.lit "a");
     mkTarget (Ex.hit Ex.far 0 1 16) (JS.lit "s")].
Proof.
  assert (H1 : JS.lit "f" <> []) by discriminate.
  assert (H2 : NoDup (fuzzy_motion_labels (Ex.manual Ex.asd))).
  { repeat constructor; simpl; intuition discriminate. }
  rewrite (proj1 (proj2 (proj2 (targets_entry_fresh (Ex.manual Ex.asd) Ex.env
                                  (JS.lit "f") initial H1 H2)))).
  vm_compute. reflexivity.
Defined.

(** X8. Running getTarget again on the same input, the cache untouched
    in between (as the loop does after a printable key: once for
    auto-jump, once to render), keeps every Target of the first output,
    unchanged, in the second. *)
Theorem rerun_keeps_targets (c : Config) (e : Env) (words : list Word)
  (input : JS.str) (labels : option (list JS.str)) (s s1 : State)
  (t : Target.t) :
  targetCache s1 = targetCache (snd (getTarget c e words input labels s)) ->
  In t (fst (getTarget c e words input labels s)) ->
  In t (fst (getTarget c e words input labels s1)).
Proof.
  intros Hs Ht.
  pose proof (getTarget_places c e words input labels s) as ND.
  destruct (getTarget_out c e words input labels s)
    as [(_ & E1 & _) | (Hne & E1 & Ec)]; [rewrite E1 in Ht; destruct Ht|].
  rewrite Ec in Hs.
  destruct (assignLabels_struct (targetCache s) labels
              (dedup (concatenated c e input words))) as [_ H].
  rewrite <- E1 in H. destruct (H t Ht) as (r & Hr & Et & _).
  destruct (find (sameIdentity r) (targetCache s1)) as [ct|] eqn:Ef.
  - pose proof (cached_in := fold_carried_in (targetCache s1) labels
                  (dedup (concatenated c e input words))
                  (mkLabeling 0 [] (map Target.char (targetCache s1)))
                  r ct Hr Ef).
    rewrite getTarget_nonempty by assumption. simpl. unfold assignLabels.
    replace t with (mkTarget r (Target.char ct)); [exact cached_in|].
    apply find_some in Ef. destruct Ef as [Hin Hs'].
    apply sameIdentity_ident in Hs'. rewrite Hs in Hin.
    assert (ct = t).
    { apply (NoDup_map_inj tplace _ ct t ND Hin Ht).
      apply tident_tplace. rewrite Hs', Et. reflexivity. }
    subst ct. symmetry. exact Et.
  - exfalso.
    assert (Hf : sameIdentity r t = false).
    { apply (find_none _ _ Ef). rewrite Hs. exact Ht. }
    assert (sameIdentity r t = true); [|congruence].
    apply sameIdentity_ident. rewrite Et. reflexivity.
Qed.

Lemma rerun_keeps_targets_witness :
  In (mkTarget (Ex.hit Ex.foo 0 1 16) [97])
     (fst (getTarget (Ex.manual Ex.asd) Ex.env Ex.words (JS.lit "f")
             (Some Ex.asd)
             (snd (getTarget (Ex.manual Ex.asd) Ex.env Ex.words (JS.lit "f")
                     (Some Ex.asd) initial)))).
Proof.
  apply (rerun_keeps_targets (Ex.manual Ex.asd) Ex.env Ex.words (JS.lit "f")
           (Some Ex.asd) initial).
  - reflexivity.
  - vm_compute. left. reflexivity.
Defined.


(** ** The renderer bookkeeping *)

(** X9. unmountTargets is idempotent: a second call sends no request and
    leaves the state of the first, whose mark and match lists are
    empty. *)
Theorem unmountTargets_idempotent (c : Config) (s : State) :
  snd (unmountTargets c (snd (unmountTargets c s)))
  = snd (unmountTargets c s)
  /\ markIds (snd (unmountTargets c s)) = []
  /\ targetMatchIds (snd (unmountTargets c s)) = [].
Proof.
  rewrite (unmountTargets_eq c (snd (unmountTargets c s))).
  rewrite (unmountTargets_eq c s).
  destruct (host c); simpl; rewrite ?app_nil_r; repeat split.
Qed.

(** The state one [mountTarget] leaves, field by field. *)
Lemma mountTarget_fields (c : Config) (e : Env) (i : nat) (t : Target.t)
  (s : State) :
  let s1 := snd (mountTarget c e i t s) in
  targetCache s1 = targetCache s
  /\ length (markIds s1) = S (length (markIds s))
  /\ match host c with
     | Vim => markIds s1 = markIds s ++ [textPropId s + 1]
              /\ textPropId s1 = textPropId s + 1
              /\ length (popupIds s1) = S (length (popupIds s))
     | Nvim => popupIds s1 = popupIds s /\ textPropId s1 = textPropId s
     end
  /\ (if fuzzy_motion_disable_match_highlight c
      then targetMatchIds s1 = targetMatchIds s
           /\ forall id, live KMatch id (trace s1) = live KMatch id (trace s)
      else length (targetMatchIds s1) = S (length (targetMatchIds s))).
Proof.
  unfold mountTarget.
  destruct (host c), (fuzzy_motion_disable_match_highlight c); simpl;
    rewrite ?length_app; simpl; repeat split; try lia;
    intros id; repeat rewrite live_app; simpl; lia.
Qed.

Lemma propIds_S (p : Z) (n : nat) :
  [p + 1] ++ propIds (p + 1) n = propIds p (S n).
Proof.
  unfold propIds. cbn [seq map app].
  rewrite <- (seq_shift n 1), map_map.
  change (p + Z.of_nat 1) with (p + 1). f_equal.
  apply map_ext. intros i. lia.
Qed.

Lemma mountFrom_fields (c : Config) (e : Env) (ts : list Target.t) :
  forall (i : nat) (s : State),
    let s1 := snd (mountFrom c e i ts s) in
    targetCache s1 = targetCache s
    /\ length (markIds s1) = (length (markIds s) + length ts)%nat
    /\ match host c with
       | Vim => markIds s1 = markIds s ++ propIds (textPropId s) (length ts)
                /\ textPropId s1 = textPropId s + Z.of_nat (length ts)
                /\ length (popupIds s1) = (length (popupIds s) + length ts)%nat
       | Nvim => popupIds s1 = popupIds s /\ textPropId s1 = textPropId s
       end
    /\ (if fuzzy_motion_disable_match_highlight c
        then targetMatchIds s1 = targetMatchIds s
             /\ forall id, live KMatch id (trace s1) = live KMatch id (trace s)
        else length (targetMatchIds s1)
             = (length (targetMatchIds s) + length ts)%nat).
Proof.
  induction ts as [|t ts IH]; intros i s.
  - simpl. unfold propIds. simpl. rewrite app_nil_r.
    destruct (host c), (fuzzy_motion_disable_match_highlight c);
      repeat split; lia.
  - cbn [mountFrom]. rewrite bind_eq. cbv zeta.
    destruct (mountTarget_fields c e i t s) as (A1 & A2 & A3 & A4).
    destruct (IH (S i) (snd (mountTarget c e i t s))) as (B1 & B2 & B3 & B4).
    cbv zeta in *.
    set (s1 := snd (mountTarget c e i t s)) in *.
    set (s2 := snd (mountFrom c e (S i) ts s1)) in *.
    split; [congruence|]. split; [simpl; lia|]. split.
    + destruct (host c).
      * destruct A3, B3. split; congruence.
      * destruct A3 as (A3 & A3' & A3''), B3 as (B3 & B3' & B3'').
        split; [|split].
        -- rewrite B3, A3, A3', <- app_assoc, propIds_S. reflexivity.
        -- rewrite B3', A3'. simpl length. lia.
        -- simpl. lia.
    + destruct (fuzzy_motion_disable_match_highlight c).
      * destruct A4 as [A4 A4'], B4 as [B4 B4']. split; [congruence|].
        intros id. rewrite B4', A4'. reflexivity.
      * simpl. lia.
Qed.

(** X10. The bookkeeping of mountTargets: one mark per Target; on Vim
    the marks are the consecutive text-property identifiers after
    [textPropId], which advances by the number of Targets, and one popup
    per Target; on Neovim no popup and [textPropId] untouched; one match
    highlight per Target unless highlighting is disabled, in which case
    no match is created. *)
Theorem mountTargets_bookkeeping (c : Config) (e : Env)
  (ts : list Target.t) (s : State) :
  let s1 := snd (mountTargets c e ts s) in
  length (markIds s1) = (length (markIds s) + length ts)%nat
  /\ match host c with
     | Vim => markIds s1 = markIds s ++ propIds (textPropId s) (length ts)
              /\ textPropId s1 = textPropId s + Z.of_nat (length ts)
              /\ length (popupIds s1) = (length (popupIds s) + length ts)%nat
     | Nvim => popupIds s1 = popupIds s /\ textPropId s1 = textPropId s
     end
  /\ (if fuzzy_motion_disable_match_highlight c
      then targetMatchIds s1 = targetMatchIds s
           /\ forall id, live KMatch id (trace s1) = live KMatch id (trace s)
      else length (targetMatchIds s1)
           = (length (targetMatchIds s) + length ts)%nat).
Proof.
  unfold mountTargets.
  destruct (mountFrom_fields c e ts 0%nat s) as (_ & H). exact H.
Qed.

(** X11. Unmounting after mounting deletes everything mounted, whatever
    the Targets and the host: for every kind of object and identifier,
    what is live afterwards is what was live before less what the lists
    recorded before; on a state with empty lists nothing changes. *)
Theorem mount_then_unmount (c : Config) (e : Env) (ts : list Target.t)
  (s : State) :
  let s2 := snd (unmountTargets c (snd (mountTargets c e ts s))) in
  (forall k id, live k id (trace s2) = live k id (trace s) - owed c k id s)
  /\ (markIds s = [] -> popupIds s = [] -> targetMatchIds s = [] ->
      forall k id, live k id (trace s2) = live k id (trace s)).
Proof.
  intros s2.
  assert (L : forall k id,
             live k id (trace s2) = live k id (trace s) - owed c k id s).
  { intros k id.
    pose proof (unowned_unmountTargets c k id (snd (mountTargets c e ts s))) as U1.
    pose proof (unowned_mountTargets c e k id ts s) as U2.
    fold s2 in U1. rewrite U2 in U1. unfold unowned in U1.
    assert (Z0 : owed c k id s2 = 0).
    { unfold s2. rewrite unmountTargets_eq. unfold owed.
      destruct (host c), k; reflexivity. }
    lia. }
  split; [exact L|].
  intros Hm Hp Hx k id. rewrite L. unfold owed. rewrite Hm, Hp, Hx.
  destruct k, (host c); simpl; lia.
Qed.


(** ** The session *)

(** *** The cursor *)















(** *** The input *)

Lemma num_eqb_false (a : JS.num) (z : Z) :
  JS.num_eqb a (JS.Num z) = false -> a <> JS.Num z.
Proof.
  intros H ->. simpl in H. rewrite Z.eqb_refl in H. discriminate.
Qed.

Lemma Forall_removelast {A} (P : A -> Prop) (l : list A) :
  Forall P l -> Forall P (removelast l).
Proof.
  induction 1 as [|x l Hx Hl IH]; simpl; [constructor|].
  destruct l; [constructor | constructor; assumption].
Qed.

Lemma length_removelast_le {A} (l : list A) :
  (length (removelast l) <= length l)%nat.
Proof.
  induction l as [|x l IH]; simpl; [lia|]. destruct l; simpl in *; lia.
Qed.

Lemma input_dispatch (c : Config) (e : Env) (words : list Word)
  (input input' : JS.str) (ts : list Target.t) (code : JS.num) (s : State) :
  fst (dispatch c e words input ts code s) = Continue input' ->
  Forall (searchable (fuzzy_motion_labels c)) input ->
  Forall (searchable (fuzzy_motion_labels c)) input'
  /\ (length input' <= S (length input))%nat.
Proof.
  unfold dispatch. intros E H.
  destruct (JS.num_eqb code (JS.Num ESC)); [discriminate|].
  destruct (find _ (fuzzy_motion_labels c)) eqn:Ef.
  - destruct (find _ ts); [rewrite bind_eq in E; discriminate|].
    inversion E; subst. auto.
  - destruct (_ || _).
    { inversion E; subst. split; [apply Forall_removelast; assumption|].
      pose proof (length_removelast_le input). unfold JS.slice_0_m1. lia. }
    destruct (JS.num_eqb code (JS.Num C_W)).
    { inversion E; subst. split; [constructor | simpl; lia]. }
    destruct (_ && _) eqn:Er; [|inversion E; subst; auto].
    apply andb_true_iff in Er. destruct Er as [R1 R2].
    destruct code as [z|]; [|discriminate].
    simpl in R1, R2. apply Z.leb_le in R1, R2.
    assert (Hin : Forall (searchable (fuzzy_motion_labels c))
                         (input ++ JS.nr2char (JS.Num z))
                  /\ (length (input ++ JS.nr2char (JS.Num z))
                      <= S (length input))%nat).
    { split; [|rewrite length_app; simpl; lia].
      apply Forall_app. split; [assumption|]. simpl. constructor; [|constructor].
      split; [lia|]. intros label Hl. apply num_eqb_false.
      apply (find_none _ _ Ef label Hl). }
    rewrite bind_eq in E.
    destruct (fst (getTarget c e words (input ++ JS.nr2char (JS.Num z)) _ s))
      as [|t [|t' ts']].
    + inversion E; subst. exact Hin.
    + destruct (fuzzy_motion_auto_jump c);
        [rewrite bind_eq in E; discriminate|].
      inversion E; subst. exact Hin.
    + inversion E; subst. exact Hin.
Qed.

Lemma input_handle (c : Config) (e : Env) (words : list Word)
  (input input' : JS.str) (ts : list Target.t) (v : value) (s : State) :
  fst (handle c e words input ts v s) = Continue input' ->
  Forall (searchable (fuzzy_motion_labels c)) input ->
  Forall (searchable (fuzzy_motion_labels c)) input'
  /\ (length input' <= S (length input))%nat.
Proof.
  unfold handle. destruct v as [z|]; [|discriminate].
  destruct (z =? ENTER); [|apply input_dispatch].
  destruct ts; [discriminate | apply input_dispatch].
Qed.

Lemma input_loop (c : Config) (e : Env) (words : list Word)
  (keys : list value) :
  forall (input : JS.str) (s : State) (input' : JS.str) (ts : list Target.t),
    fst (loop c e words keys input s) = Waiting input' ts ->
    Forall (searchable (fuzzy_motion_labels c)) input ->
    Forall (searchable (fuzzy_motion_labels c)) input'
    /\ (length input' <= length input + length keys)%nat.
Proof.
  induction keys as [|v keys IH]; intros input s input' ts E H.
  - rewrite loop_nil in E. inversion E; subst. split; [assumption | lia].
  - rewrite loop_cons in E. cbv zeta in E.
    destruct (fst (handle c e words input _ v _)) as [i2|x] eqn:Eh;
      [|discriminate].
    destruct (input_handle _ _ _ _ _ _ _ _ Eh H) as [H2 L2].
    destruct (IH _ _ _ _ E H2) as [H3 L3].
    split; [assumption | simpl; lia].
Qed.

(** X13. While a session waits for a key, its input consists of
    printable ASCII characters (32..126) none of which is the first
    character of a label, and is no longer than the number of keys
    read: a label character can never be part of the search input. *)
Theorem input_is_searchable (c : Config) (e : Env) (keys : list value)
  (s0 : State) (input : JS.str) (ts : list Target.t) :
  fst (execute c e keys s0) = Waiting input ts ->
  Forall (searchable (fuzzy_motion_labels c)) input
  /\ (length input <= length keys)%nat.
Proof.
  rewrite execute_eq. cbv zeta. rewrite settle_outcome. intros E.
  apply (input_loop c e (getWords e) keys [] _ input ts E). constructor.
Qed.

Lemma input_is_searchable_witness :
  Forall (searchable Ex.asd) (JS.lit "f") /\ (length (JS.lit "f") <= 3)%nat.
Proof.
  apply (input_is_searchable (Ex.manual Ex.asd) Ex.env
           [VNumber 102; VNumber 100; VNumber 9] initial (JS.lit "f")
           [mkTarget (Ex.hit Ex.foo 0 1 16) [97];
            mkTarget (Ex.hit Ex.far 0 1 16) [115]]).
  vm_compute. reflexivity.
Defined.

(** X14. A code that is none of Enter, Escape, Backspace (8, 128) and
    Clear-word (23), is not the first character of a label and lies
    outside 32..126 is ignored: the next cycle starts from the state the
    render left, with the same input.  So are, among others, Tab and
    every character beyond ASCII. *)
Theorem other_codes_ignored (c : Config) (e : Env) (words : list Word)
  (keys : list value) (input : JS.str) (s : State) (z : Z) :
  z <> ENTER -> z <> ESC -> z <> BS -> z <> C_H -> z <> C_W ->
  ~ (SPACE <= z <= TILDE) ->
  find (fun label => JS.num_eqb (JS.charCodeAt0 label) (JS.Num z))
       (fuzzy_motion_labels c) = None ->
  loop c e words (VNumber z :: keys) input s
  = loop c e words keys input (snd (render c e words input s)).
Proof.
  intros H1 H2 H3 H4 H5 H6 Hf.
  rewrite loop_cons. cbv zeta. rewrite handle_number by assumption.
  unfold dispatch. rewrite Hf.
  replace (JS.num_eqb (JS.Num z) (JS.Num ESC)) with false
    by (symmetry; apply Z.eqb_neq; assumption).
  replace (JS.num_eqb (JS.Num z) (JS.Num BS)) with false
    by (symmetry; apply Z.eqb_neq; assumption).
  replace (JS.num_eqb (JS.Num z) (JS.Num C_H)) with false
    by (symmetry; apply Z.eqb_neq; assumption).
  replace (JS.num_eqb (JS.Num z) (JS.Num C_W)) with false
    by (symmetry; apply Z.eqb_neq; assumption).
  cbn [orb].
  replace (JS.num_leb (JS.Num SPACE) (JS.Num z)
           && JS.num_leb (JS.Num z) (JS.Num TILDE)) with false; [reflexivity|].
  symmetry. apply andb_false_iff. simpl.
  destruct (Z.leb_spec SPACE z); [|auto]. right. apply Z.leb_gt. lia.
Qed.

Lemma other_codes_ignored_witness :
  fst (loop (Ex.manual Ex.asd) Ex.env Ex.words [VNumber 233] (JS.lit "f")
            initial)
  = fst (loop (Ex.manual Ex.asd) Ex.env Ex.words [] (JS.lit "f")
              (snd (render (Ex.manual Ex.asd) Ex.env Ex.words (JS.lit "f")
                      initial))).
Proof.
  rewrite (other_codes_ignored (Ex.manual Ex.asd) Ex.env Ex.words []
             (JS.lit "f") initial 233); try discriminate; try reflexivity.
  unfold SPACE, TILDE. lia.
Defined.


(** *** What is on display *)

Lemma render_eq (c : Config) (e : Env) (words : list Word) (input : JS.str)
  (s : State) :
  let g := getTarget c e words input (Some (fuzzy_motion_labels c))
             (snd (unmountTargets c
                     (snd (emit (Echo (JS.lit "fuzzy-motion: " ++ input)) s)))) in
  render c e words input s
  = (fst g, snd (emit (Redraw false) (snd (mountTargets c e (fst g) (snd g))))).
Proof. unfold render. rewrite !bind_eq. reflexivity. Qed.

Lemma markIds_getTarget (c : Config) (e : Env) (words : list Word)
  (input : JS.str) (labels : option (list JS.str)) :
  preserves markIds (getTarget c e words input labels).
Proof. unfold getTarget, aggregate, runFzf, runKensaku. frame. Qed.

(** After a render the cache is what is displayed and every Target has
    its mark. *)
Lemma render_display (c : Config) (e : Env) (words : list Word)
  (input : JS.str) (s : State) :
  (input = [] -> targetCache s = []) ->
  targetCache (snd (render c e words input s)) = fst (render c e words input s)
  /\ length (markIds (snd (render c e words input s)))
     = length (fst (render c e words input s))
  /\ (input = [] -> fst (render c e words input s) = []).
Proof.
  intros J. rewrite render_eq. cbv zeta.
  set (s1 := snd (emit (Echo (JS.lit "fuzzy-motion: " ++ input)) s)).
  set (s2 := snd (unmountTargets c s1)).
  set (g := getTarget c e words input (Some (fuzzy_motion_labels c)) s2).
  cbn [fst snd].
  assert (C2 : targetCache s2 = targetCache s).
  { unfold s2. rewrite cache_unmountTargets. reflexivity. }
  assert (M2 : markIds s2 = []).
  { unfold s2. rewrite unmountTargets_eq. destruct (host c); reflexivity. }
  destruct (mountFrom_fields c e (fst g) 0%nat (snd g)) as (F1 & F2 & _).
  fold (mountTargets c e (fst g) (snd g)) in F1, F2.
  assert (Mg : markIds (snd g) = []).
  { unfold g. rewrite markIds_getTarget. exact M2. }
  split; [|split].
  - change (targetCache (snd (mountTargets c e (fst g) (snd g))) = fst g).
    rewrite F1. unfold g.
    destruct (getTarget_out c e words input (Some (fuzzy_motion_labels c)) s2)
      as [(E0 & E1 & E2) | (_ & _ & E2)].
    + rewrite E1, E2, C2. apply J. exact E0.
    + exact E2.
  - change (length (markIds (snd (mountTargets c e (fst g) (snd g))))
            = length (fst g)).
    rewrite F2, Mg. reflexivity.
  - intros ->. reflexivity.
Qed.

Lemma cache_dispatch_empty (c : Config) (e : Env) (words : list Word)
  (input input' : JS.str) (ts : list Target.t) (code : JS.num) (s : State) :
  fst (dispatch c e words input ts code s) = Continue input' ->
  (input = [] -> targetCache s = []) ->
  input' = [] -> targetCache (snd (dispatch c e words input ts code s)) = [].
Proof.
  unfold dispatch. intros E J E'.
  destruct (JS.num_eqb code (JS.Num ESC)); [discriminate|].
  destruct (find _ (fuzzy_motion_labels c)).
  - destruct (find _ ts); [rewrite bind_eq in E; discriminate|].
    inversion E; subst. simpl. auto.
  - destruct (_ || _); [reflexivity|].
    destruct (JS.num_eqb code (JS.Num C_W)); [reflexivity|].
    destruct (_ && _) eqn:Er; [|inversion E; subst; simpl; auto].
    exfalso.
    assert (Hne : input ++ JS.nr2char code <> []).
    { destruct code as [z|]; [|discriminate Er].
      simpl. destruct input; discriminate. }
    rewrite bind_eq in E.
    destruct (fst (getTarget c e words (input ++ JS.nr2char code) _ s))
      as [|t [|t' ts']].
    + inversion E; subst. contradiction.
    + destruct (fuzzy_motion_auto_jump c);
        [rewrite bind_eq in E; discriminate|].
      inversion E; subst. contradiction.
    + inversion E; subst. contradiction.
Qed.

Lemma cache_handle_empty (c : Config) (e : Env) (words : list Word)
  (input input' : JS.str) (ts : list Target.t) (v : value) (s : State) :
  fst (handle c e words input ts v s) = Continue input' ->
  (input = [] -> targetCache s = []) ->
  input' = [] -> targetCache (snd (handle c e words input ts v s)) = [].
Proof.
  unfold handle. destruct v as [z|]; [|discriminate].
  destruct (z =? ENTER); [|apply cache_dispatch_empty].
  destruct ts; [discriminate | apply cache_dispatch_empty].
Qed.

Lemma display_loop (c : Config) (e : Env) (words : list Word)
  (keys : list value) :
  forall (input : JS.str) (s : State) (input' : JS.str) (ts : list Target.t),
    (input = [] -> targetCache s = []) ->
    fst (loop c e words keys input s) = Waiting input' ts ->
    targetCache (snd (loop c e words keys input s)) = ts
    /\ length (markIds (snd (loop c e words keys input s))) = length ts
    /\ (input' = [] -> ts = []).
Proof.
  induction keys as [|v keys IH]; intros input s input' ts J E.
  - rewrite loop_nil in *. cbn [fst snd] in *. inversion E; subst.
    apply render_display. exact J.
  - rewrite loop_cons in *. cbv zeta in *.
    destruct (render_display c e words input s J) as (R1 & _ & R3).
    destruct (fst (handle c e words input _ v _)) as [i2|x] eqn:Eh;
      [|discriminate].
    apply IH; [|exact E].
    apply (cache_handle_empty _ _ _ _ _ _ _ _ Eh).
    intros E0. rewrite R1. apply R3. exact E0.
Qed.

(** X15. While a session waits for a key, what it displays is what it
    caches: the Label Cache is the list of Targets on display, there is
    one mark per Target on display, and with the empty input nothing is
    on display. *)
Theorem display_is_cache (c : Config) (e : Env) (keys : list value)
  (s0 : State) (input : JS.str) (ts : list Target.t) :
  fst (execute c e keys s0) = Waiting input ts ->
  targetCache (snd (execute c e keys s0)) = ts
  /\ length (markIds (snd (execute c e keys s0))) = length ts
  /\ (input = [] -> ts = []).
Proof.
  rewrite execute_eq. cbv zeta. rewrite settle_outcome. intros E.
  set (sh := shade e (lineNumbers e) (with_cache [] s0)) in *.
  assert (J : @nil Z = [] -> targetCache (snd sh) = []).
  { intros _. unfold sh.
    assert (P : preserves targetCache (shade e (lineNumbers e))).
    { generalize (lineNumbers e). intros l.
      induction l as [|x l IH]; simpl; [apply preserves_ret|]. frame. }
    rewrite P. reflexivity. }
  destruct (display_loop c e (getWords e) keys [] (snd sh) input ts J E)
    as (D1 & D2 & D3).
  rewrite E. simpl. auto.
Qed.

Lemma display_is_cache_witness :
  targetCache (snd (execute (Ex.manual Ex.asd) Ex.env
                            [VNumber 102; VNumber 100] initial))
  = [mkTarget (Ex.hit Ex.foo 0 1 16) [97];
     mkTarget (Ex.hit Ex.far 0 1 16) [115]].
Proof.
  apply (display_is_cache (Ex.manual Ex.asd) Ex.env
           [VNumber 102; VNumber 100] initial (JS.lit "f")).
  vm_compute. reflexivity.
Defined.

(** *** The shading *)

Lemma shade_length (e : Env) (lines : list Z) :
  forall s, length (fst (shade e lines s)) = length lines.
Proof.
  induction lines as [|l lines IH]; intros s; [reflexivity|].
  cbn [shade]. repeat (rewrite bind_eq; cbn [ret fst snd]).
  simpl. rewrite IH. reflexivity.
Qed.

(** X16. [execute] shades [endLine + startLine + 1] lines from
    [startLine] on: every line of the window, [startLine] to [endLine],
    and the [2 * startLine] lines after it; one match per line. *)
Theorem shaded_lines (e : Env) :
  length (lineNumbers e) = Z.to_nat (endLine e + startLine e + 1)
  /\ (forall l, In l (lineNumbers e)
                <-> startLine e <= l <= endLine e + 2 * startLine e)
  /\ forall s, length (fst (shade e (lineNumbers e) s))
               = length (lineNumbers e).
Proof.
  split; [|split].
  - unfold lineNumbers. rewrite length_map, length_seq. reflexivity.
  - intros l. unfold lineNumbers. rewrite in_map_iff. split.
    + intros (i & <- & Hi). apply in_seq in Hi. lia.
    + intros H. exists (Z.to_nat (l - startLine e)). split; [lia|].
      apply in_seq. lia.
  - apply shade_length.
Qed.


(** ** The word extractor *)













Lemma scan_stuck (b : Words.Buffer) (regexp line : JS.str) (n i : nat) :
  Words.exec b regexp line i = Some (i, i) ->
  forall fuel words, Words.scan fuel b regexp line n i words = None.
Proof.
  intros E. induction fuel as [|fuel IH]; intros words; [reflexivity|].
  simpl. rewrite E. apply IH.
Qed.

(** X18. A word regexp with an empty match where [lastIndex] stands
    never lets its [while] loop end: when the first regexp matches the
    empty string at the start of the first line, getWords returns for no
    allowance of iterations. *)
Theorem empty_match_never_returns (b : Words.Buffer) (regexp line : JS.str)
  (regexps lines : list JS.str) :
  Words.fuzzy_motion_word_regexp_list b = regexp :: regexps ->
  Words.lines b = line :: lines ->
  Words.exec b regexp line 0 = Some (0%nat, 0%nat) ->
  forall fuel, Words.getWords fuel b = None.
Proof.
  intros Er El E fuel. unfold Words.getWords. rewrite El. simpl.
  rewrite Er. simpl. rewrite (scan_stuck b regexp line 0 0 E). reflexivity.
Qed.

Lemma empty_match_never_returns_witness :
  Words.getWords 1000 Words.stuck = None.
Proof.
  apply (empty_match_never_returns Words.stuck (JS.lit "x*") (JS.lit "foo")
           [] [] eq_refl eq_refl eq_refl).
Defined.

(** *** Where the words are *)

Lemma byteLength_nonneg (s : JS.str) : 0 <= Words.byteLength s.
Proof.
  remember (length s) as n eqn:En. revert s En.
  induction n as [n IH] using lt_wf_ind. intros s En.
  destruct s as [|u rest]; cbn [Words.byteLength]; [lia|].
  assert (H0 : 0 <= Words.byteLength rest)
    by (apply (IH (length rest)); [subst; simpl; lia | reflexivity]).
  destruct (u <? 128); [lia|]. destruct (u <? 2048); [lia|].
  destruct ((55296 <=? u) && (u <? 56320)); [|lia].
  destruct rest as [|v rest']; [lia|].
  destruct ((56320 <=? v) && (v <? 57344)); [|lia].
  assert (0 <= Words.byteLength rest')
    by (apply (IH (length rest')); [subst; simpl; lia | reflexivity]).
  lia.
Qed.

Lemma byteLength_ascii (s : JS.str) :
  Forall (fun u => u < 128) s -> Words.byteLength s = Z.of_nat (length s).
Proof.
  induction 1 as [|u s Hu Hs IH]; [reflexivity|].
  cbn [Words.byteLength length]. apply Z.ltb_lt in Hu. rewrite Hu, IH. lia.
Qed.

Lemma applyFilters_filter (b : Words.Buffer) (fs : list JS.str) :
  forall ws,
    Words.applyFilters b fs ws
    = filter (fun w => forallb (fun r => Words.matchNotNull b r (text w)) fs) ws.
Proof.
  unfold Words.applyFilters.
  induction fs as [|f fs IH]; intros ws; simpl.
  - induction ws as [|w ws IHw]; simpl; [reflexivity | f_equal; exact IHw].
  - rewrite IH. clear IH.
    induction ws as [|w ws IHw]; simpl; [reflexivity|].
    destruct (Words.matchNotNull b f (text w)); simpl; rewrite IHw;
      reflexivity.
Qed.

Section Extraction.

Variable b : Words.Buffer.

Lemma scan_extracted (regexp line : JS.str) (n : nat) :
  nth_error (Words.lines b) n = Some line ->
  In regexp (Words.fuzzy_motion_word_regexp_list b) ->
  forall fuel lastIndex words ws,
    Words.scan fuel b regexp line n lastIndex words = Some ws ->
    Forall (Words.extracted b) words -> Forall (Words.extracted b) ws.
Proof.
  intros Hn Hr. induction fuel as [|fuel IH]; intros i words ws E F;
    [discriminate|].
  simpl in E. destruct (Words.exec b regexp line i) as [[index j]|] eqn:Ex.
  - apply (IH _ _ _ E). apply Forall_app. split; [exact F|].
    constructor; [|constructor].
    exists n, line, regexp, i, index, j. auto.
  - inversion E; subst. exact F.
Qed.

Lemma eachRegexp_extracted (line : JS.str) (n : nat) (fuel : nat) :
  nth_error (Words.lines b) n = Some line ->
  forall rs words ws,
    incl rs (Words.fuzzy_motion_word_regexp_list b) ->
    Words.eachRegexp fuel b rs line n words = Some ws ->
    Forall (Words.extracted b) words -> Forall (Words.extracted b) ws.
Proof.
  intros Hn. induction rs as [|r rs IH]; intros words ws I E F; simpl in E.
  - inversion E; subst. exact F.
  - destruct (Words.scan fuel b r line n 0 words) as [w1|] eqn:E1;
      [|discriminate].
    apply (IH w1 ws); [intros x Hx; apply I; right; exact Hx | exact E |].
    apply (scan_extracted r line n Hn (I r (or_introl eq_refl)) _ _ _ _ E1 F).
Qed.

Lemma eachLine_extracted (fuel : nat) :
  forall ls n words ws,
    (forall k, nth_error ls k = nth_error (Words.lines b) (n + k)) ->
    Words.eachLine fuel b ls n words = Some ws ->
    Forall (Words.extracted b) words -> Forall (Words.extracted b) ws.
Proof.
  induction ls as [|l ls IH]; intros n words ws H E F; simpl in E.
  - inversion E; subst. exact F.
  - destruct (Words.eachRegexp fuel b _ l n words) as [w1|] eqn:E1;
      [|discriminate].
    apply (IH (S n) w1 ws); [| exact E |].
    + intros k. replace (S n + k)%nat with (n + S k)%nat by lia.
      apply (H (S k)).
    + assert (Hn : nth_error (Words.lines b) n = Some l).
      { pose proof (H 0%nat) as H0. rewrite Nat.add_0_r in H0.
        rewrite <- H0. reflexivity. }
      apply (eachRegexp_extracted l n fuel Hn _ _ _ (incl_refl _) E1 F).
Qed.

(** X19. Every word getWords returns is the match of one of the word
    regexps in one of the lines read: its text is the matched slice, its
    line the line's number counted from [startLine], within the lines
    read, and its column, at least 1, the UTF-8 length of what precedes
    the match plus one (the match index plus one when that is ASCII);
    and its text matches every filter regexp. *)
Theorem words_are_matches (fuel : nat) (ws : list Word) (w : Word) :
  Words.getWords fuel b = Some ws ->
  In w ws ->
  (exists n ln regexp lastIndex index lastIndex',
      nth_error (Words.lines b) n = Some ln
      /\ In regexp (Words.fuzzy_motion_word_regexp_list b)
      /\ Words.exec b regexp ln lastIndex = Some (index, lastIndex')
      /\ text w = Words.slice ln index lastIndex'
      /\ line (pos w) = Z.of_nat n + Words.startLine b
      /\ col (pos w) = Words.byteLength (Words.slice ln 0 index) + 1
      /\ (Forall (fun u => u < 128) (Words.slice ln 0 index) ->
          col (pos w) = Z.of_nat (length (Words.slice ln 0 index)) + 1))
  /\ Words.startLine b <= line (pos w)
     < Words.startLine b + Z.of_nat (length (Words.lines b))
  /\ 1 <= col (pos w)
  /\ forall regexp, In regexp (Words.fuzzy_motion_word_filter_regexp_list b) ->
                    Words.matchNotNull b regexp (text w) = true.
Proof.
  unfold Words.getWords. intros E Hw.
  destruct (Words.eachLine fuel b (Words.lines b) 0 []) as [all|] eqn:Ea;
    [|discriminate].
  inversion E; subst. clear E.
  rewrite applyFilters_filter in Hw. apply filter_In in Hw.
  destruct Hw as [Hall Hf].
  assert (F : Forall (Words.extracted b) all).
  { apply (eachLine_extracted fuel (Words.lines b) 0 [] all);
      [intros k; reflexivity | exact Ea | constructor]. }
  rewrite Forall_forall in F.
  destruct (F w Hall) as (n & l & regexp & i & index & j & Hn & Hr & Hx & ->).
  assert (Hlt : (n < length (Words.lines b))%nat)
    by (apply nth_error_Some; congruence).
  pose proof (byteLength_nonneg (Words.slice l 0 index)) as B.
  split; [|split; [|split]].
  - exists n, l, regexp, i, index, j. simpl. repeat split; auto.
    intros A. rewrite (byteLength_ascii _ A). reflexivity.
  - simpl. lia.
  - simpl. lia.
  - intros r Hr'. rewrite forallb_forall in Hf. apply Hf. exact Hr'.
Qed.

End Extraction.

Lemma words_are_matches_witness :
  Words.startLine Words.sample
  <= line (pos (Ex.word "of" 4 3))
  < Words.startLine Words.sample + Z.of_nat (length (Words.lines Words.sample)).
Proof.
  apply (words_are_matches Words.sample 8
           [Ex.word "foo" 3 1; Ex.word "of" 4 3] (Ex.word "of" 4 3)).
  - vm_compute. reflexivity.
  - right. left. reflexivity.
Defined.

Lemma eachLine_filters_irrelevant (b : Words.Buffer) (fs : list JS.str)
  (fuel : nat) :
  forall ls n words,
    Words.eachLine fuel
      (Words.mkBuffer (Words.lines b) (Words.startLine b)
                      (Words.fuzzy_motion_word_regexp_list b) fs
                      (Words.exec b)) ls n words
    = Words.eachLine fuel b ls n words.
Proof.
  assert (S : forall fuel' regexp ln n i words,
             Words.scan fuel'
               (Words.mkBuffer (Words.lines b) (Words.startLine b)
                               (Words.fuzzy_motion_word_regexp_list b) fs
                               (Words.exec b)) regexp ln n i words
             = Words.scan fuel' b regexp ln n i words).
  { induction fuel' as [|fuel' IH]; intros regexp ln n i words;
      [reflexivity|].
    simpl. destruct (Words.exec b regexp ln i) as [[index j]|];
      [apply IH | reflexivity]. }
  assert (R : forall rs ln n words,
             Words.eachRegexp fuel
               (Words.mkBuffer (Words.lines b) (Words.startLine b)
                               (Words.fuzzy_motion_word_regexp_list b) fs
                               (Words.exec b)) rs ln n words
             = Words.eachRegexp fuel b rs ln n words).
  { induction rs as [|r rs IH]; intros ln n words; [reflexivity|].
    simpl. rewrite S. destruct (Words.scan fuel b r ln n 0 words);
      [apply IH | reflexivity]. }
  induction ls as [|l ls IH]; intros n words; [reflexivity|].
  simpl. rewrite R.
  destruct (Words.eachRegexp fuel b _ l n words); [apply IH | reflexivity].
Qed.

(** X20. The filter regexps act as one conjunction: getWords keeps, in
    their order, the extracted words whose text matches every filter, so
    the result does not depend on the order of the filter list or on
    repetitions in it, and an empty filter list keeps every word. *)
Theorem filters_are_a_conjunction (b : Words.Buffer) (fuel : nat) :
  Words.getWords fuel b
  = option_map
      (filter (fun w =>
                 forallb (fun r => Words.matchNotNull b r (text w))
                         (Words.fuzzy_motion_word_filter_regexp_list b)))
      (Words.eachLine fuel b (Words.lines b) 0 [])
  /\ forall fs,
       (forall r, In r fs
                  <-> In r (Words.fuzzy_motion_word_filter_regexp_list b)) ->
       Words.getWords fuel
         (Words.mkBuffer (Words.lines b) (Words.startLine b)
                         (Words.fuzzy_motion_word_regexp_list b) fs
                         (Words.exec b))
       = Words.getWords fuel b.
Proof.
  assert (G : forall b', Words.getWords fuel b'
              = option_map
                  (filter (fun w =>
                     forallb (fun r => Words.matchNotNull b' r (text w))
                             (Words.fuzzy_motion_word_filter_regexp_list b')))
                  (Words.eachLine fuel b' (Words.lines b') 0 [])).
  { intros b'. unfold Words.getWords.
    destruct (Words.eachLine fuel b' (Words.lines b') 0 []); [|reflexivity].
    simpl. rewrite applyFilters_filter. reflexivity. }
  split; [apply G|].
  intros fs H. rewrite (G b), G. cbn [Words.lines Words.fuzzy_motion_word_filter_regexp_list].
  rewrite eachLine_filters_irrelevant.
  destruct (Words.eachLine fuel b (Words.lines b) 0 []) as [all|];
    [|reflexivity].
  simpl. f_equal. apply filter_ext. intros w.
  apply eq_true_iff_eq. rewrite !forallb_forall.
  split; intros A r Hr; apply A; apply H; exact Hr.
Qed.


(** ** Labels from one render to the next *)

(** X21. From one render to the next, with the recomputation a
    printable key triggers in between (render, getTarget on the new
    input, render of the new input), a Target still on display keeps its
    char: Targets of the two displays with the same identity triple
    carry the same char. *)
Theorem labels_stable_across_renders (c : Config) (e : Env)
  (words : list Word) (input1 input2 : JS.str) (s : State)
  (t t' : Target.t) :
  let labels := Some (fuzzy_motion_labels c) in
  let s1 := snd (render c e words input1 s) in
  let g := getTarget c e words input2 labels s1 in
  In t (fst (render c e words input1 s)) ->
  In t' (fst (render c e words input2 (snd g))) ->
  tident t = tident t' ->
  Target.char t = Target.char t'.
Proof.
  intros labels s1 g Ht Ht' Hid.
  destruct (render_parts c e words input1 s) as (sA & sA' & CA & TA & EA & CA').
  destruct (render_parts c e words input2 (snd g)) as (sB & sB' & CB & TB & _).
  fold s1 in CA'. rewrite TA in Ht. rewrite TB in Ht'. subst sA'.
  fold labels in Ht, Ht', CA'.
  (* the entry behind t' is a match of the middle computation too *)
  destruct (getTarget_out c e words input2 labels sB)
    as [(_ & E1 & _) | (Hne & E1 & _)]; [rewrite E1 in Ht'; destruct Ht'|].
  destruct (assignLabels_struct (targetCache sB) labels
              (dedup (concatenated c e input2 words))) as [_ H].
  rewrite <- E1 in H. destruct (H t' Ht') as (r & Hr & Et' & _).
  assert (Hr' : tident t' = ident r) by (rewrite Et'; reflexivity).
  (* t is in the cache the middle computation reads *)
  destruct (getTarget_out c e words input1 labels sA)
    as [(_ & F1 & _) | (_ & _ & Fc)]; [rewrite F1 in Ht; destruct Ht|].
  assert (Hc : In t (targetCache s1)) by (rewrite CA', Fc; exact Ht).
  destruct (find (sameIdentity r) (targetCache s1)) as [ct|] eqn:Ef.
  - assert (Hg : In (mkTarget r (Target.char ct)) (fst g)).
    { unfold g. rewrite getTarget_nonempty by assumption. simpl.
      unfold assignLabels. apply fold_carried_in; assumption. }
    transitivity (Target.char (mkTarget r (Target.char ct))).
    + apply (stable_pair c e words labels input1 input2 sA s1 t _ CA' Ht Hg).
      rewrite Hid, Hr'. reflexivity.
    + apply (stable_pair c e words labels input2 input2 s1 sB _ t' CB Hg Ht').
      rewrite Hr'. reflexivity.
  - exfalso.
    assert (Hf : sameIdentity r t = false) by (apply (find_none _ _ Ef); exact Hc).
    assert (sameIdentity r t = true); [|congruence].
    apply sameIdentity_ident. congruence.
Qed.

(** Alphabet [a, s, d]: "foo" carries a while "f" is displayed and
    still does once "fo" is. *)
Lemma labels_stable_across_renders_witness :
  Target.char (mkTarget (Ex.hit Ex.foo 0 1 16) [97])
  = Target.char (mkTarget (Ex.hit Ex.foo 0 2 40) [97]).
Proof.
  apply (labels_stable_across_renders (Ex.manual Ex.asd) Ex.env Ex.words
           (JS.lit "f") (JS.lit "fo") initial).
  - vm_compute. left. reflexivity.
  - vm_compute. left. reflexivity.
  - reflexivity.
Defined.
